(** * Shipping route optimizer: path enumeration, scoring and selection

    A shallow embedding of [flask_shipping_optimizer.py].

    - Port codes are strings; a path is a [list string].
    - Python dictionaries ([ADJ], [PORTS], [EDGES], the handling overrides)
      are finite maps ([gmap]); [ADJ] is also kept as the ordered list of its
      items, since the precomputation of [EDGES] iterates over it.
    - Python floats are idealised as real numbers ([R]): arithmetic is exact,
      there is no NaN and no infinity.  What depends on binary64 rounding is
      outside this model.
    - An exception raised by the Python code is [None]. *)

From Stdlib Require Import ZArith Reals Lra Lia List Ascii.
From stdpp Require Import base option list strings gmap sorting.

Local Open Scope Z_scope.

(** ** Simple-path enumeration *)

Module Enumeration.

(** The adjacency dictionary [graph]: port code to list of neighbours. *)
Abbreviation graph := (gmap string (list string)).

(** A frontier entry [(node, path)]. *)
Abbreviation frame := (string * list string)%type.

(** [graph.get(node, [])]. *)
Definition graph_get (g : graph) (node : string) : list string :=
  default [] (g !! node).

(** The body of [for nbr in graph.get(node, [])], as a transition on the
    pair (frontier, paths yielded so far).  The frontier is kept with its top
    first: Python's [stack.append] is a cons and [stack.pop()] takes the
    head. *)
Definition visit (dest : string) (path : list string)
    (st : list frame * list (list string)) (nbr : string)
    : list frame * list (list string) :=
  if bool_decide (nbr ∈ path) then st
  else
    let new_path := path ++ [nbr] in
    if bool_decide (nbr = dest) then (st.1, st.2 ++ [new_path])
    else ((nbr, new_path) :: st.1, st.2).

(** [while stack: ...], with one unit of fuel per iteration.  [None] means
    the fuel ran out before the frontier was empty. *)
Fixpoint dfs_loop (fuel : nat) (g : graph) (dest : string) (max_hops : Z)
    (stack : list frame) (out : list (list string))
    : option (list (list string)) :=
  match stack with
  | [] => Some out
  | (node, path) :: rest =>
      match fuel with
      | O => None
      | S fuel' =>
          if bool_decide (Z.of_nat (length path) - 1 > max_hops)
          then dfs_loop fuel' g dest max_hops rest out
          else
            let st := foldl (visit dest path) (rest, out) (graph_get g node) in
            dfs_loop fuel' g dest max_hops st.1 st.2
      end
  end.

(** Number of further extensions a path may still receive: zero exactly
    when the loop discards the entry ([len(path)-1 > max_hops]). *)
Definition budget (max_hops : Z) (path : list string) : nat :=
  Z.to_nat (max_hops + 2 - Z.of_nat (length path)).

(** Size of the search tree below [node] of height [k]: an upper bound on
    the iterations spent on a frontier entry and all its descendants. *)
Fixpoint tree_size (g : graph) (k : nat) (node : string) : nat :=
  match k with
  | O => 1
  | S k' => S (sum_list (map (tree_size g k') (graph_get g node)))
  end.

Definition frame_size (g : graph) (max_hops : Z) (f : frame) : nat :=
  tree_size g (budget max_hops f.2) f.1.

Definition stack_size (g : graph) (max_hops : Z) (stack : list frame) : nat :=
  sum_list (map (frame_size g max_hops) stack).

(** [enumerate_simple_paths(graph, source, dest, max_hops)]: the list of
    the paths the generator yields, in the order it yields them. *)
Definition enumerate_simple_paths (g : graph) (source dest : string)
    (max_hops : Z) : option (list (list string)) :=
  dfs_loop (stack_size g max_hops [(source, [source])]) g dest max_hops
           [(source, [source])] [].

(** Edge count of a path: [len(path) - 1]. *)
Definition edge_count (path : list string) : Z := Z.of_nat (length path) - 1.

(** A graph with one key, [{'A': ['B']}], for the examples. *)
Definition one_edge_graph : graph := {[ "A" := ["B"] ]}.

(** [x] is a node of the graph: a key of the dictionary, or a neighbour
    that some key lists. *)
Definition occurs (g : graph) (x : string) : Prop :=
  is_Some (g !! x) \/ exists node nbrs, g !! node = Some nbrs /\ x ∈ nbrs.

(** [ext] continues a walk of the graph from [node]: every node is listed
    among the neighbours of the one before it. *)
Fixpoint walk (g : graph) (node : string) (ext : list string) : Prop :=
  match ext with
  | [] => True
  | x :: ext' => x ∈ graph_get g node /\ walk g x ext'
  end.

(** No list of [l] is a prefix of another one at a different position. *)
Fixpoint antichain (l : list (list string)) : Prop :=
  match l with
  | [] => True
  | p :: l' =>
      Forall (fun q => ~ p `prefix_of` q /\ ~ q `prefix_of` p) l' /\ antichain l'
  end.

End Enumeration.

(** ** Great-circle distance and the edge table *)

Module Geo.

Local Open Scope R_scope.

(** [math.radians]. *)
Definition radians (deg : R) : R := deg * PI / 180.

(** [math.atan2(y, x)]: the angle of the point [(x, y)], in (-PI, PI]. *)
Definition atan2 (y x : R) : R :=
  if Rlt_dec 0 x then atan (y / x)
  else if Rlt_dec x 0 then
    (if Rle_dec 0 y then atan (y / x) + PI else atan (y / x) - PI)
  else if Rlt_dec 0 y then PI / 2
  else if Rlt_dec y 0 then - (PI / 2)
  else 0.

(** The intermediate value [a] of [haversine_km]. *)
Definition haversine_a (lat1 lon1 lat2 lon2 : R) : R :=
  let phi1 := radians lat1 in
  let phi2 := radians lat2 in
  let dphi := radians (lat2 - lat1) in
  let dlambda := radians (lon2 - lon1) in
  (sin (dphi / 2)) ^ 2 + cos phi1 * cos phi2 * (sin (dlambda / 2)) ^ 2.

(** [haversine_km(lat1, lon1, lat2, lon2)].  [math.sqrt] is the total
    square root of the reals: over the reals its two arguments are never
    negative (lemma [haversine_a_bounds] below). *)
Definition haversine_km (lat1 lon1 lat2 lon2 : R) : R :=
  let R0 := 6371 in
  let a := haversine_a lat1 lon1 lat2 lon2 in
  let c := 2 * atan2 (sqrt a) (sqrt (1 - a)) in
  R0 * c.

(** An entry of [PORTS]. *)
Record port := { name : string; lat : R; lon : R }.

Definition PORTS : gmap string port :=
  list_to_map
    [ ("IDX", {| name := "Incheon";     lat := 37.4563; lon := 126.7052 |});
      ("HKG", {| name := "Hong Kong";   lat := 22.3193; lon := 114.1694 |});
      ("SIN", {| name := "Singapore";   lat := 1.3521;  lon := 103.8198 |});
      ("CNS", {| name := "CNS";         lat := 23.1167; lon := 113.25 |});
      ("SHA", {| name := "Shanghai";    lat := 31.2304; lon := 121.4737 |});
      ("PTY", {| name := "Panama City"; lat := 8.9833;  lon := -79.5167 |});
      ("LAX", {| name := "Los Angeles"; lat := 33.7405; lon := -118.2775 |});
      ("DXB", {| name := "Dubai";       lat := 25.2532; lon := 55.3657 |}) ].

(** The items of [ADJ], in the order of the dictionary literal. *)
Definition ADJ_items : list (string * list string) :=
  [ ("IDX", ["HKG"; "SHA"]);
    ("HKG", ["IDX"; "SIN"; "SHA"; "DXB"]);
    ("SIN", ["HKG"; "SHA"; "PTY"]);
    ("SHA", ["IDX"; "HKG"; "SIN"; "DXB"]);
    ("PTY", ["SIN"; "LAX"]);
    ("LAX", ["PTY"; "DXB"]);
    ("DXB", ["HKG"; "SHA"; "LAX"]);
    ("CNS", ["HKG"; "SHA"]) ].

Definition ADJ : gmap string (list string) := list_to_map ADJ_items.

(** [code in PORTS]. *)
Definition known_port (code : string) : Prop := is_Some (PORTS !! code).

Definition FUEL_PRICE_PER_KM : R := 0.12.
Definition BASE_HANDLING_COST : R := 500.
Definition DEFAULT_VESSEL_SPEED_KMH : R := 20.

(** A value of [EDGES]: [{'distance_km': ..., 'time_h': ...}]. *)
Record edge_info := { distance_km : R; info_time_h : R }.

(** [compute_edge_info(a, b)]; [None] is the [KeyError] of [PORTS[a]]. *)
Definition compute_edge_info (a b : string) : option edge_info :=
  pa ← PORTS !! a;
  pb ← PORTS !! b;
  let dist := haversine_km (lat pa) (lon pa) (lat pb) (lon pb) in
  let time_h := dist / DEFAULT_VESSEL_SPEED_KMH in
  Some {| distance_km := dist; info_time_h := time_h |}.

(** [tuple(sorted((u, v)))]: strings compare lexicographically. *)
Definition sorted_pair (u v : string) : string * string :=
  if String.leb u v then (u, v) else (v, u).

(** The inner loop of the precomputation: [for v in nbrs: ...]. *)
Fixpoint edges_of_node (u : string) (nbrs : list string)
    (edges : gmap (string * string) edge_info)
    : option (gmap (string * string) edge_info) :=
  match nbrs with
  | [] => Some edges
  | v :: nbrs' =>
      let key := sorted_pair u v in
      match edges !! key with
      | Some _ => edges_of_node u nbrs' edges
      | None =>
          info ← compute_edge_info u v;
          edges_of_node u nbrs' (<[key := info]> edges)
      end
  end.

(** The outer loop: [for u, nbrs in ADJ.items(): ...]. *)
Fixpoint build_edges (items : list (string * list string))
    (edges : gmap (string * string) edge_info)
    : option (gmap (string * string) edge_info) :=
  match items with
  | [] => Some edges
  | (u, nbrs) :: items' =>
      edges' ← edges_of_node u nbrs edges;
      build_edges items' edges'
  end.

(** [EDGES] as it stands once the module is loaded (the loading succeeds:
    lemma [EDGES_loaded]). *)
Definition EDGES : gmap (string * string) edge_info :=
  default ∅ (build_edges ADJ_items ∅).

(** Every entry of an edge table was computed by [compute_edge_info] from
    a pair of ports that sorts to its key. *)
Definition coherent (edges : gmap (string * string) edge_info) : Prop :=
  forall key info,
    edges !! key = Some info ->
    exists u v, sorted_pair u v = key /\ compute_edge_info u v = Some info.

End Geo.

(** ** Cost and time of a path *)

Module Scoring.

Import Geo.
Local Open Scope R_scope.

(** The result dictionary [{'cost': ..., 'time_h': ...}]. *)
Record score := { score_cost : R; score_time_h : R }.

(** [round(x, 2)] on an exact value: the nearest multiple of 1/100, a tie
    going to the even one. *)
Definition round_half_even (x : R) : Z :=
  let n := Zfloor x in
  let frac := x - IZR n in
  if Rlt_dec frac (1 / 2) then n
  else if Rlt_dec (1 / 2) frac then (n + 1)%Z
  else if Z.even n then n else (n + 1)%Z.

Definition round2 (x : R) : R := IZR (round_half_even (x * 100)) / 100.

(** Float division; [None] is [ZeroDivisionError]. *)
Definition py_div (x y : R) : option R :=
  if Req_dec_T y 0 then None else Some (x / y).

(** [port_handling_overrides.get(node, BASE_HANDLING_COST)]. *)
Definition handling (overrides : gmap string R) (node : string) : R :=
  default BASE_HANDLING_COST (overrides !! node).

(** The first loop: [for node in path: total_cost += handling]. *)
Definition add_handling (overrides : gmap string R) (path : list string)
    (total_cost : R) : R :=
  foldl (fun acc node => acc + handling overrides node) total_cost path.

(** [EDGES.get(key)], falling back on [compute_edge_info(a, b)]. *)
Definition edge_lookup (a b : string) : option edge_info :=
  match EDGES !! sorted_pair a b with
  | Some info => Some info
  | None => compute_edge_info a b
  end.

(** [max(0.5, vessel_capacity / 1000.0)]. *)
Definition capacity_factor (vessel_capacity : R) : R :=
  Rmax 0.5 (vessel_capacity / 1000).

(** The pairs [(path[i], path[i+1])] for [i in range(len(path)-1)]. *)
Fixpoint consecutive (path : list string) : list (string * string) :=
  match path with
  | a :: (b :: _) as rest => (a, b) :: consecutive rest
  | _ => []
  end.

(** The second loop, over the consecutive pairs, on the accumulators
    [(total_cost, total_time)]. *)
Fixpoint edge_loop (vessel_capacity speed_kmh fuel_price_per_km : R)
    (pairs : list (string * string)) (acc : R * R) : option (R * R) :=
  match pairs with
  | [] => Some acc
  | (a, b) :: pairs' =>
      info ← edge_lookup a b;
      let dist := distance_km info in
      let edge_cost := dist * fuel_price_per_km * capacity_factor vessel_capacity in
      edge_time ← py_div dist speed_kmh;
      edge_loop vessel_capacity speed_kmh fuel_price_per_km pairs'
                (acc.1 + edge_cost, acc.2 + edge_time)
  end.

(** [path_cost_and_time(path, vessel_capacity, port_handling_overrides,
    speed_kmh, fuel_price_per_km)]. *)
Definition path_cost_and_time (path : list string) (vessel_capacity : R)
    (port_handling_overrides : gmap string R)
    (speed_kmh fuel_price_per_km : R) : option score :=
  let total_cost := add_handling port_handling_overrides path 0 in
  totals ← edge_loop vessel_capacity speed_kmh fuel_price_per_km
                     (consecutive path) (total_cost, 0);
  Some {| score_cost := round2 totals.1; score_time_h := round2 totals.2 |}.

(** What the second loop adds to [total_cost]: the edge-cost component of
    the cost, before the final rounding. *)
Definition edge_cost_component (path : list string)
    (vessel_capacity speed_kmh fuel_price_per_km : R) : option R :=
  fst <$> edge_loop vessel_capacity speed_kmh fuel_price_per_km
                    (consecutive path) (0, 0).

(** *** The scoring formula as the specification words it *)

Definition Rsum (l : list R) : R := foldr Rplus 0 l.

(** The distance the code uses for the edge [(a, b)]. *)
Definition edge_distance (ab : string * string) : option R :=
  distance_km <$> edge_lookup ab.1 ab.2.

(** The distances of the consecutive pairs of a path. *)
Definition edge_distances (path : list string) : option (list R) :=
  mapM edge_distance (consecutive path).

Definition handling_sum (overrides : gmap string R) (path : list string) : R :=
  Rsum (map (handling overrides) path).

Definition edge_cost_sum (dists : list R) (fuel_price capacity : R) : R :=
  Rsum (map (fun d => d * fuel_price * capacity_factor capacity) dists).

(** The edge times [distance / speed]; [None] when a division raises. *)
Definition edge_times (dists : list R) (speed : R) : option (list R) :=
  mapM (fun d => py_div d speed) dists.


(** *** The cost and the time as the claim states them

    These definitions are written from the words of the claim and share
    nothing with the code above but the sum of a list. *)






End Scoring.

(** ** Selecting the cheapest feasible route *)

Module Selection.

Import Enumeration Geo Scoring.
Local Open Scope R_scope.

(** A candidate dictionary [{'path': ..., 'cost': ..., 'time_h': ...}]. *)
Record candidate := { path : list string; cost : R; time_h : R }.

Definition candidate_of (p : list string) (info : score) : candidate :=
  {| path := p; cost := score_cost info; time_h := score_time_h info |}.

(** The loop over the enumerated paths: score the path, keep it when it
    meets the deadline.  [None] is an exception raised while scoring. *)
Fixpoint collect (paths : list (list string)) (capacity : R)
    (overrides : gmap string R) (speed deadline fuel_price : R)
    (candidates : list candidate) : option (list candidate) :=
  match paths with
  | [] => Some candidates
  | p :: paths' =>
      info ← path_cost_and_time p capacity overrides speed fuel_price;
      if Rle_dec (score_time_h info) deadline
      then collect paths' capacity overrides speed deadline fuel_price
                   (candidates ++ [candidate_of p info])
      else collect paths' capacity overrides speed deadline fuel_price
                   candidates
  end.

#[global] Instance Rle_decision : RelDecision Rle := Rle_dec.

(** The feasible candidates, as the specification words them: of the
    scored paths, those whose time is at most the deadline. *)
Definition feasible (deadline : R) (scored : list (list string * score))
    : list candidate :=
  (fun ps => candidate_of ps.1 ps.2)
    <$> filter (fun ps => score_time_h ps.2 <= deadline) scored.

(** The key order of [sorted(candidates, key=lambda x: x['cost'])]. *)
Definition cost_le (c1 c2 : candidate) : Prop := cost c1 <= cost c2.

#[global] Instance cost_le_dec : RelDecision cost_le :=
  fun c1 c2 => Rle_dec (cost c1) (cost c2).

(** [sorted] is stable: candidates of equal cost keep their order.  Here it
    is an insertion sort from the right, where a candidate goes before the
    first one that does not cost less. *)
Fixpoint insert_by_cost (c : candidate) (sorted : list candidate)
    : list candidate :=
  match sorted with
  | [] => [c]
  | c' :: rest =>
      if Rle_dec (cost c) (cost c') then c :: sorted
      else c' :: insert_by_cost c rest
  end.

Definition sorted_by_cost (candidates : list candidate) : list candidate :=
  foldr insert_by_cost [] candidates.

(** The hop limit both routes pass to the enumeration. *)
Definition MAX_HOPS : Z := 6.

(** The part the two routes share: enumerate, score, filter, sort, pick.
    The result is the pair [(best, candidates_sorted)]. *)
Definition select (origin destination : string) (capacity : R)
    (overrides : gmap string R) (speed deadline fuel_price : R)
    : option (option candidate * list candidate) :=
  paths ← enumerate_simple_paths ADJ origin destination MAX_HOPS;
  candidates ← collect paths capacity overrides speed deadline fuel_price [];
  let candidates_sorted := sorted_by_cost candidates in
  let best := head candidates_sorted in
  Some (best, candidates_sorted).

(** What [/api/optimize] answers. *)
Inductive api_response :=
| InvalidPorts
| Routes (best : option candidate) (all : list candidate).

(** [api_optimize], after the numeric fields of the request are read. *)
Definition api_optimize (origin destination : string)
    (capacity speed deadline fuel_price : R) (overrides : gmap string R)
    : option api_response :=
  match PORTS !! origin, PORTS !! destination with
  | Some _, Some _ =>
      r ← select origin destination capacity overrides speed deadline fuel_price;
      Some (Routes r.1 r.2)
  | _, _ => Some InvalidPorts
  end.

End Selection.

(** ** The handling overrides of the form route *)

Module Overrides.

Import Selection.
Local Open Scope char_scope.

(** Characters [str.strip] removes (port codes and numbers are ASCII; a
    string is read as its sequence of ASCII characters). *)
Definition is_whitespace (c : Ascii.ascii) : bool :=
  let n := Ascii.nat_of_ascii c in
  ((9 <=? n) && (n <=? 13) || (28 <=? n) && (n <=? 32))%nat.

Fixpoint lstrip (s : string) : string :=
  match s with
  | String c s' => if is_whitespace c then lstrip s' else s
  | EmptyString => EmptyString
  end.

(** [s.strip()]. *)
Definition strip (s : string) : string :=
  String.rev (lstrip (String.rev (lstrip s))).

(** [s.split(sep)] for a one-character separator. *)
Fixpoint split (sep : Ascii.ascii) (s : string) : list string :=
  match s with
  | EmptyString => [EmptyString]
  | String c s' =>
      if bool_decide (c = sep) then EmptyString :: split sep s'
      else match split sep s' with
           | piece :: pieces => String c piece :: pieces
           | [] => [String c EmptyString]
           end
  end.

Definition upper_char (c : Ascii.ascii) : Ascii.ascii :=
  let n := Ascii.nat_of_ascii c in
  if ((97 <=? n) && (n <=? 122))%nat then Ascii.ascii_of_nat (n - 32) else c.

(** [s.upper()]. *)
Fixpoint upper (s : string) : string :=
  match s with
  | String c s' => String (upper_char c) (upper s')
  | EmptyString => EmptyString
  end.

Section Parse.

(** The builtin [float(v)]; [None] is its [ValueError]. *)
Variable py_float : string -> option R.

(** One iteration of the loop: [k, v = part.split(':')] and
    [overrides[k.strip().upper()] = float(v)].  [None] stands for an
    exception: the unpacking of a list that has not two elements, or
    [float] rejecting [v]. *)
Definition parse_entry (part : string) (overrides : gmap string R)
    : option (gmap string R) :=
  match split ":"%char part with
  | [k; v] =>
      x ← py_float v;
      Some (<[upper (strip k) := x]> overrides)
  | _ => None
  end.

(** [try: for part in ...: ... except Exception: pass]: the first
    exception leaves the loop, with the dictionary as it stands. *)
Fixpoint parse_loop (parts : list string) (overrides : gmap string R)
    : gmap string R :=
  match parts with
  | [] => overrides
  | part :: parts' =>
      match parse_entry part overrides with
      | Some overrides' => parse_loop parts' overrides'
      | None => overrides
      end
  end.

(** Lines 217-225 of [optimize]: from the raw form field to the
    dictionary of overrides. *)
Definition parse_overrides (overrides_field : string) : gmap string R :=
  let overrides_raw := strip overrides_field in
  if bool_decide (overrides_raw = EmptyString) then ∅
  else parse_loop (split ","%char overrides_raw) ∅.

(** [optimize], after the numeric fields of the form are read: the pair
    [(best, candidates_sorted)] handed to the template. *)
Definition optimize (origin destination : string)
    (capacity speed deadline fuel_price : R) (overrides_field : string)
    : option (option candidate * list candidate) :=
  select origin destination capacity (parse_overrides overrides_field)
         speed deadline fuel_price.

(** [float(request.form.get(field, default))]: the default is a number and
    is taken as it is; a field that is present is read by [float], which may
    raise. *)
Definition form_float (form : gmap string string) (field : string)
    (default : R) : option R :=
  match form !! field with
  | Some raw => py_float raw
  | None => Some default
  end.

(** [optimize] from the posted form (lines 211-217, then the rest of the
    route).  [None] stands for an exception: the lookup of a missing [origin]
    or [destination], or [float] rejecting a numeric field; these are read
    outside the [try]. *)
Definition optimize_request (form : gmap string string)
    : option (option candidate * list candidate) :=
  origin ← form !! "origin"%string;
  destination ← form !! "destination"%string;
  capacity ← form_float form "capacity"%string 1000%R;
  speed ← form_float form "speed"%string Geo.DEFAULT_VESSEL_SPEED_KMH;
  deadline ← form_float form "deadline"%string 1000000000%R;
  fuel_price ← form_float form "fuel_price"%string Geo.FUEL_PRICE_PER_KM;
  optimize origin destination capacity speed deadline fuel_price
           (default EmptyString (form !! "overrides"%string)).

(** A token is well formed when its iteration raises nothing. *)
Definition well_formed (part : string) : Prop :=
  is_Some (parse_entry part ∅).

(** *** Entry-by-entry parsing, as the specification words it *)

(** Every token is tried on its own; a malformed one is skipped. *)
Fixpoint parse_lenient (parts : list string) (overrides : gmap string R)
    : gmap string R :=
  match parts with
  | [] => overrides
  | part :: parts' =>
      match parse_entry part overrides with
      | Some overrides' => parse_lenient parts' overrides'
      | None => parse_lenient parts' overrides
      end
  end.

End Parse.

(** [float] on a string of decimal digits: an instance of the builtin for
    the examples below. *)
Fixpoint digits_value (s : string) (acc : Z) : option Z :=
  match s with
  | EmptyString => Some acc
  | String c s' =>
      match Ascii.is_nat c with
      | Some d => digits_value s' (10 * acc + Z.of_nat d)
      | None => None
      end
  end.

Definition float_of_digits (s : string) : option R :=
  match s with
  | EmptyString => None
  | _ => IZR <$> digits_value s 0
  end.

End Overrides.

(** * Properties *)

(** ** The enumeration: termination and invariants *)

Module EnumerationFacts.

Import Enumeration.

Lemma budget_discard max_hops path :
  Z.of_nat (length path) - 1 > max_hops -> budget max_hops path = O.
Proof. unfold budget. lia. Qed.

Lemma budget_extend max_hops path nbr :
  ~ Z.of_nat (length path) - 1 > max_hops ->
  budget max_hops path = S (budget max_hops (path ++ [nbr])).
Proof. unfold budget. rewrite length_app. simpl. lia. Qed.

(** The frames one iteration pushes weigh no more than the subtrees of the
    neighbours it ran over. *)
Lemma visit_size g dest max_hops path nbrs st :
  (stack_size g max_hops (foldl (visit dest path) st nbrs).1
   <= stack_size g max_hops st.1
      + sum_list (map (tree_size g (budget max_hops (path ++ [""]))) nbrs))%nat.
Proof.
  revert st. induction nbrs as [|nbr nbrs IH]; intros st; simpl.
  - lia.
  - etrans; [apply IH|].
    assert (Hb : forall n, budget max_hops (path ++ [n])
                           = budget max_hops (path ++ [""])).
    { intros n. unfold budget. by rewrite !length_app. }
    unfold visit. repeat case_bool_decide; simpl; try lia.
    unfold stack_size. simpl. unfold frame_size at 1. simpl.
    rewrite Hb. unfold stack_size. lia.
Qed.

(** The loop ends before the fuel does, once the fuel covers the size of
    the frontier. *)
Lemma dfs_loop_terminates g dest max_hops fuel :
  forall stack out,
    (stack_size g max_hops stack <= fuel)%nat ->
    is_Some (dfs_loop fuel g dest max_hops stack out).
Proof.
  induction fuel as [|fuel IH]; intros [|[node path] rest] out Hsz; simpl;
    try done.
  - unfold stack_size, frame_size in Hsz. simpl in Hsz.
    destruct (budget max_hops path); simpl in Hsz; lia.
  - unfold stack_size in Hsz. simpl in Hsz. fold (stack_size g max_hops rest) in Hsz.
    case_bool_decide as Hlen.
    + apply IH. unfold frame_size in Hsz. simpl in Hsz.
      rewrite (budget_discard _ _ Hlen) in Hsz. simpl in Hsz. lia.
    + apply IH.
      etrans; [apply visit_size|]. simpl.
      unfold frame_size in Hsz. simpl in Hsz.
      rewrite (budget_extend _ _ "" Hlen) in Hsz. simpl in Hsz. lia.
Qed.

(** The generator always runs to its end. *)
Lemma enumerate_terminates g source dest max_hops :
  is_Some (enumerate_simple_paths g source dest max_hops).
Proof. apply dfs_loop_terminates. done. Qed.

Section Invariant.

Variables (g : graph) (dest : string) (max_hops : Z).
Variable frame_inv : frame -> Prop.
Variable path_inv : list string -> Prop.

Hypothesis extend_inv : forall node path nbr,
  frame_inv (node, path) ->
  Z.of_nat (length path) - 1 <= max_hops ->
  nbr ∈ graph_get g node ->
  nbr ∉ path ->
  (nbr = dest -> path_inv (path ++ [nbr]))
  /\ (nbr <> dest -> frame_inv (nbr, path ++ [nbr])).

Lemma visit_inv node path nbrs st :
  frame_inv (node, path) ->
  Z.of_nat (length path) - 1 <= max_hops ->
  nbrs ⊆ graph_get g node ->
  Forall frame_inv st.1 -> Forall path_inv st.2 ->
  Forall frame_inv (foldl (visit dest path) st nbrs).1
  /\ Forall path_inv (foldl (visit dest path) st nbrs).2.
Proof.
  intros Hf Hlen. revert st.
  induction nbrs as [|nbr nbrs IH]; intros st Hsub Hst Hout; simpl; [done|].
  assert (Hin : nbr ∈ graph_get g node) by (apply Hsub; left).
  assert (Hsub' : nbrs ⊆ graph_get g node)
    by (intros x Hx; apply Hsub; by right).
  apply IH; [done| |]; unfold visit;
    repeat case_bool_decide; simpl; try done.
  - constructor; [|done]. by apply (extend_inv node path nbr).
  - apply Forall_app. split; [done|]. constructor; [|done].
    by apply (extend_inv node path nbr).
Qed.

Lemma dfs_loop_inv fuel :
  forall stack out paths,
    Forall frame_inv stack -> Forall path_inv out ->
    dfs_loop fuel g dest max_hops stack out = Some paths ->
    Forall path_inv paths.
Proof.
  induction fuel as [|fuel IH]; intros stack out paths Hst Hout Hrun;
    destruct stack as [|[node path] rest]; simpl in Hrun;
    try (by simplify_eq).
  apply Forall_cons in Hst as [Hf Hrest].
  case_bool_decide as Hlen; [by eapply IH|].
  destruct (visit_inv node path (graph_get g node) (rest, out))
    as [? ?]; [done|lia|done..|].
  by eapply IH.
Qed.

End Invariant.

(** Whatever holds of the start frame and is kept by every extension holds
    of every emitted path. *)
Lemma enumerate_inv g source dest max_hops
    (frame_inv : frame -> Prop) (path_inv : list string -> Prop) paths :
  (forall node path nbr,
      frame_inv (node, path) ->
      Z.of_nat (length path) - 1 <= max_hops ->
      nbr ∈ graph_get g node -> nbr ∉ path ->
      (nbr = dest -> path_inv (path ++ [nbr]))
      /\ (nbr <> dest -> frame_inv (nbr, path ++ [nbr]))) ->
  frame_inv (source, [source]) ->
  enumerate_simple_paths g source dest max_hops = Some paths ->
  Forall path_inv paths.
Proof.
  intros Hext Hstart Hrun.
  eapply (dfs_loop_inv g dest max_hops frame_inv path_inv Hext); [| |exact Hrun].
  - by constructor.
  - constructor.
Qed.

Lemma graph_get_listed (g : graph) node nbr :
  nbr ∈ graph_get g node -> exists nbrs, g !! node = Some nbrs /\ nbr ∈ nbrs.
Proof.
  unfold graph_get. destruct (g !! node) as [nbrs|]; simpl.
  - eauto.
  - by intros ?%elem_of_nil.
Qed.

(** No path is emitted when no extension can reach the destination. *)
Lemma enumerate_nothing g source dest max_hops (frame_inv : frame -> Prop) :
  (forall node path nbr,
      frame_inv (node, path) ->
      nbr ∈ graph_get g node -> nbr ∉ path ->
      nbr <> dest /\ frame_inv (nbr, path ++ [nbr])) ->
  frame_inv (source, [source]) ->
  enumerate_simple_paths g source dest max_hops = Some [].
Proof.
  intros Hext Hstart.
  destruct (enumerate_terminates g source dest max_hops) as [paths Hrun].
  rewrite Hrun. f_equal.
  assert (Hall : Forall (fun _ => False) paths).
  { eapply (enumerate_inv g source dest max_hops frame_inv); [|done..].
    intros node path nbr Hf _ Hin Hnew.
    destruct (Hext node path nbr) as [Hne Hf']; [done..|]. by split. }
  destruct paths as [|p ?]; [done|]. by apply Forall_cons in Hall as [[] _].
Qed.

(** The bound the loop does enforce: an entry is expanded while its path
    has at most [max_hops] edges, so an emitted path has at most one
    more. *)
Lemma emitted_edge_count g source dest max_hops paths :
  enumerate_simple_paths g source dest max_hops = Some paths ->
  Forall (fun p => edge_count p <= max_hops + 1) paths.
Proof.
  apply (enumerate_inv g source dest max_hops (fun _ => True)); [|done].
  intros node path nbr _ Hlen _ _. split; [|done].
  intros _. unfold edge_count. rewrite length_app. simpl. lia.
Qed.

(** Every emitted path starts at the source and ends at the destination. *)
Lemma emitted_endpoints g source dest max_hops paths :
  enumerate_simple_paths g source dest max_hops = Some paths ->
  Forall (fun p => head p = Some source /\ last p = Some dest) paths.
Proof.
  apply (enumerate_inv g source dest max_hops
           (fun f => head f.2 = Some source)); [|done].
  intros node path nbr Hhd _ _ _. simpl in Hhd.
  destruct path as [|x path]; [done|]. split.
  - intros ->. split; [done|]. by rewrite last_snoc.
  - done.
Qed.

(** C1 (the hop limit) at a request the application can receive: from
    [CNS] to [DXB] with the hop limit 6 of both routes, the enumeration
    emits a path of 7 edges.  The loop compares the length of the path it
    extends, not of the path it emits. *)
Theorem hop_limit_exceeded :
  exists paths,
    enumerate_simple_paths Geo.ADJ "CNS" "DXB" 6 = Some paths
    /\ ["CNS"; "HKG"; "IDX"; "SHA"; "SIN"; "PTY"; "LAX"; "DXB"] ∈ paths
    /\ edge_count ["CNS"; "HKG"; "IDX"; "SHA"; "SIN"; "PTY"; "LAX"; "DXB"] = 7.
Proof.
  eexists. split; [vm_compute; reflexivity|]. split; [|done].
  repeat first [ apply list_elem_of_here | apply list_elem_of_further ].
Qed.

(** The smallest instance of the same behaviour: with [max_hops = 0] the
    one-edge path is emitted. *)
Example hop_limit_zero :
  enumerate_simple_paths one_edge_graph "A" "B" 0 = Some [["A"; "B"]].
Proof. vm_compute. reflexivity. Qed.

(** C10: for every graph, source, destination and hop limit, the
    enumeration runs to its end and no emitted path holds a port
    identifier twice. *)
Theorem emitted_paths_simple (g : graph) (source dest : string) (max_hops : Z) :
  exists paths,
    enumerate_simple_paths g source dest max_hops = Some paths
    /\ Forall NoDup paths.
Proof.
  destruct (enumerate_terminates g source dest max_hops) as [paths Hrun].
  exists paths. split; [done|].
  eapply (enumerate_inv g source dest max_hops (fun f => NoDup f.2));
    [|by apply NoDup_singleton|done].
  intros node path nbr Hnd _ _ Hnew. simpl in *.
  assert (NoDup (path ++ [nbr])); [|done].
  apply NoDup_app. split; [done|]. split; [|apply NoDup_singleton].
  intros x Hx ->%list_elem_of_singleton. done.
Qed.

(** C7: when the source is the destination nothing is emitted, so no
    single-node path either; and when the source or the destination is not a
    node of the graph ([occurs]: neither a key nor a listed neighbour) the
    emitted sequence is empty.  In each case the generator runs to its end
    without an exception. *)
Theorem enumerate_edge_cases (g : graph) (source dest : string) (max_hops : Z) :
  enumerate_simple_paths g source source max_hops = Some []
  /\ (~ occurs g source -> enumerate_simple_paths g source dest max_hops = Some [])
  /\ (~ occurs g dest -> enumerate_simple_paths g source dest max_hops = Some []).
Proof.
  split; [|split].
  - apply (enumerate_nothing g source source max_hops (fun f => source ∈ f.2)).
    + intros node path nbr Hin _ Hnew. simpl in *. split.
      * intros ->. done.
      * apply elem_of_app. by left.
    + simpl. by left.
  - intros Habs.
    apply (enumerate_nothing g source dest max_hops (fun f => g !! f.1 = None)).
    + intros node path nbr Hnone Hin _. simpl in *.
      unfold graph_get in Hin. rewrite Hnone in Hin. by apply elem_of_nil in Hin.
    + simpl. destruct (g !! source) eqn:E; [|done].
      exfalso. apply Habs. left. by eexists.
  - intros Habs.
    apply (enumerate_nothing g source dest max_hops (fun _ => True)); [|done].
    intros node path nbr _ Hin _. split; [|done].
    intros ->. apply Habs. right.
    destruct (graph_get_listed g node dest Hin) as (nbrs & ? & ?). eauto.
Qed.

(** The instance of C7 on the graph with the single key [A], listing [B]:
    [C] occurs nowhere. *)
Lemma enumerate_edge_cases_witness :
  enumerate_simple_paths one_edge_graph "A" "A" 6 = Some []
  /\ enumerate_simple_paths one_edge_graph "C" "B" 6 = Some []
  /\ enumerate_simple_paths one_edge_graph "A" "C" 6 = Some [].
Proof.
  assert (Hc : ~ occurs one_edge_graph "C").
  { unfold one_edge_graph. intros [[x Hx]|(node & nbrs & Hl & Hin)].
    - by rewrite lookup_singleton_ne in Hx.
    - apply lookup_singleton_Some in Hl as [_ <-].
      by apply list_elem_of_singleton in Hin. }
  destruct (enumerate_edge_cases one_edge_graph "A" "C" 6) as (H1 & _ & H3).
  destruct (enumerate_edge_cases one_edge_graph "C" "B" 6) as (_ & H2 & _).
  auto.
Defined.

(** A destination that is no key of the dictionary but is listed as a
    neighbour is a node of the graph, and is reached. *)
Example listed_destination_reached :
  one_edge_graph !! "B" = None
  /\ enumerate_simple_paths one_edge_graph "A" "B" 6 = Some [["A"; "B"]].
Proof. split; vm_compute; reflexivity. Qed.

End EnumerationFacts.

(** ** The distance function *)

Module GeoFacts.

Import Geo.
Local Open Scope R_scope.

Lemma radians_minus x y : radians (x - y) = radians x - radians y.
Proof. unfold radians. lra. Qed.

Lemma atan_nonneg x : 0 <= x -> 0 <= atan x.
Proof.
  intros [Hx| <-].
  - left. rewrite <- atan_0. by apply atan_increasing.
  - rewrite atan_0. lra.
Qed.

Lemma atan2_nonneg y x : 0 <= y -> 0 <= x -> 0 <= atan2 y x.
Proof.
  intros Hy Hx. unfold atan2. pose proof PI_RGT_0.
  repeat destruct (Rlt_dec _ _); try lra.
  apply atan_nonneg. pose proof (Rinv_0_lt_compat x). unfold Rdiv. nra.
Qed.

Lemma atan2_pos y x : 0 < y -> 0 <= x -> 0 < atan2 y x.
Proof.
  intros Hy Hx. unfold atan2. pose proof PI_RGT_0.
  repeat destruct (Rlt_dec _ _); try lra.
  rewrite <- atan_0. apply atan_increasing. by apply Rdiv_lt_0_compat.
Qed.

Lemma atan2_0_1 : atan2 0 1 = 0.
Proof.
  unfold atan2. destruct (Rlt_dec 0 1); [|lra].
  replace (0 / 1) with 0 by lra. apply atan_0.
Qed.

(** [sin(x/2)^2 = (1 - cos x) / 2]. *)
Lemma sin_half_sqr x : (sin (x / 2)) ^ 2 = (1 - cos x) / 2.
Proof.
  pose proof (cos_2a_sin (x / 2)) as H.
  replace (2 * (x / 2)) with x in H by lra. lra.
Qed.

(** The haversine of the central angle: with [phi] the latitudes and
    [dlambda] the difference of the longitudes,
    [a = (1 - (sin phi1 sin phi2 + cos phi1 cos phi2 cos dlambda)) / 2]. *)
Lemma haversine_a_central lat1 lon1 lat2 lon2 :
  haversine_a lat1 lon1 lat2 lon2
  = (1 - (sin (radians lat1) * sin (radians lat2)
          + cos (radians lat1) * cos (radians lat2)
            * cos (radians (lon2 - lon1)))) / 2.
Proof.
  unfold haversine_a. cbv zeta. rewrite !sin_half_sqr.
  rewrite radians_minus, cos_minus. lra.
Qed.

(** Over the reals the two arguments of [math.sqrt] are never negative. *)
Lemma haversine_a_bounds lat1 lon1 lat2 lon2 :
  0 <= haversine_a lat1 lon1 lat2 lon2 <= 1.
Proof.
  rewrite haversine_a_central.
  pose proof (sin2_cos2 (radians lat1)) as H1.
  pose proof (sin2_cos2 (radians lat2)) as H2.
  pose proof (COS_bound (radians (lon2 - lon1))) as [Hk1 Hk2].
  unfold Rsqr in H1, H2.
  set (s1 := sin (radians lat1)) in *. set (c1 := cos (radians lat1)) in *.
  set (s2 := sin (radians lat2)) in *. set (c2 := cos (radians lat2)) in *.
  set (k := cos (radians (lon2 - lon1))) in *.
  pose proof (Rle_0_sqr (s1 - s2)) as Hs. pose proof (Rle_0_sqr (s1 + s2)) as Hs'.
  pose proof (Rle_0_sqr (c1 - c2)) as Hc. pose proof (Rle_0_sqr (c1 + c2)) as Hc'.
  unfold Rsqr in Hs, Hs', Hc, Hc'.
  assert (Hck : - (c1 * c1 + c2 * c2) <= 2 * (c1 * c2 * k)
                <= c1 * c1 + c2 * c2).
  { destruct (Rle_dec 0 (c1 * c2)) as [Hpos|Hneg].
    - assert (0 <= (c1 * c2) * (1 - k)) by (apply Rmult_le_pos; lra).
      assert (0 <= (c1 * c2) * (1 + k)) by (apply Rmult_le_pos; lra).
      lra.
    - assert (0 <= (- (c1 * c2)) * (1 - k)) by (apply Rmult_le_pos; lra).
      assert (0 <= (- (c1 * c2)) * (1 + k)) by (apply Rmult_le_pos; lra).
      lra. }
  split; lra.
Qed.

Lemma haversine_a_sym lat1 lon1 lat2 lon2 :
  haversine_a lat1 lon1 lat2 lon2 = haversine_a lat2 lon2 lat1 lon1.
Proof.
  rewrite !haversine_a_central.
  replace (radians (lon1 - lon2)) with (- radians (lon2 - lon1))
    by (unfold radians; lra).
  rewrite cos_neg. lra.
Qed.

Lemma haversine_km_sym lat1 lon1 lat2 lon2 :
  haversine_km lat1 lon1 lat2 lon2 = haversine_km lat2 lon2 lat1 lon1.
Proof. unfold haversine_km. cbv zeta. by rewrite haversine_a_sym. Qed.

Lemma haversine_km_nonneg lat1 lon1 lat2 lon2 :
  0 <= haversine_km lat1 lon1 lat2 lon2.
Proof.
  unfold haversine_km. cbv zeta.
  pose proof (atan2_nonneg (sqrt (haversine_a lat1 lon1 lat2 lon2))
                (sqrt (1 - haversine_a lat1 lon1 lat2 lon2))
                (sqrt_pos _) (sqrt_pos _)).
  lra.
Qed.

Lemma haversine_km_same lat1 lon1 : haversine_km lat1 lon1 lat1 lon1 = 0.
Proof.
  unfold haversine_km. cbv zeta.
  assert (Ha : haversine_a lat1 lon1 lat1 lon1 = 0).
  { rewrite haversine_a_central.
    replace (radians (lon1 - lon1)) with 0 by (unfold radians; lra).
    rewrite cos_0. pose proof (sin2_cos2 (radians lat1)) as H.
    unfold Rsqr in H. lra. }
  rewrite Ha. replace (1 - 0) with 1 by lra.
  rewrite sqrt_0, sqrt_1, atan2_0_1. lra.
Qed.

(** Two points of distinct latitude are at a positive distance. *)
Lemma haversine_km_pos lat1 lon1 lat2 lon2 :
  - 90 <= lat1 <= 90 -> - 90 <= lat2 <= 90 -> lat1 <> lat2 ->
  0 < haversine_km lat1 lon1 lat2 lon2.
Proof.
  intros Hl1 Hl2 Hne. unfold haversine_km. cbv zeta.
  pose proof PI_RGT_0 as Hpi.
  assert (Ha : 0 < haversine_a lat1 lon1 lat2 lon2).
  { unfold haversine_a. cbv zeta.
    assert (0 <= cos (radians lat1))
      by (apply cos_ge_0; unfold radians; nra).
    assert (0 <= cos (radians lat2))
      by (apply cos_ge_0; unfold radians; nra).
    assert (Hs : sin (radians (lat2 - lat1) / 2) <> 0).
    { destruct (Rlt_dec lat1 lat2).
      - apply Rgt_not_eq. apply sin_gt_0; unfold radians; nra.
      - apply Rlt_not_eq. apply sin_lt_0_var; unfold radians; nra. }
    pose proof (Rsqr_pos_lt _ Hs) as Hsq. rewrite Rsqr_pow2 in Hsq.
    pose proof (pow2_ge_0 (sin (radians (lon2 - lon1) / 2))).
    assert (0 <= cos (radians lat1) * cos (radians lat2)
                 * sin (radians (lon2 - lon1) / 2) ^ 2)
      by (apply Rmult_le_pos; [apply Rmult_le_pos|]; assumption).
    lra. }
  pose proof (atan2_pos _ (sqrt (1 - haversine_a lat1 lon1 lat2 lon2))
                (sqrt_lt_R0 _ Ha) (sqrt_pos _)).
  lra.
Qed.

(** C9: the distance is symmetric in its two points, is never negative,
    and is zero between a point and itself. *)
Theorem haversine_km_metric (lat1 lon1 lat2 lon2 : R) :
  haversine_km lat1 lon1 lat2 lon2 = haversine_km lat2 lon2 lat1 lon1
  /\ 0 <= haversine_km lat1 lon1 lat2 lon2
  /\ haversine_km lat1 lon1 lat1 lon1 = 0.
Proof.
  split; [apply haversine_km_sym|].
  split; [apply haversine_km_nonneg|apply haversine_km_same].
Qed.

End GeoFacts.

(** ** The edge table *)

Module EdgeFacts.

Import Geo GeoFacts.
Local Open Scope R_scope.

Lemma sorted_pair_cases u v a b :
  sorted_pair u v = sorted_pair a b ->
  (u = a /\ v = b) \/ (u = b /\ v = a).
Proof.
  unfold sorted_pair.
  destruct (String.leb u v), (String.leb a b); intros [= -> ->]; auto.
Qed.

Lemma compute_edge_info_known a b pa pb :
  PORTS !! a = Some pa -> PORTS !! b = Some pb ->
  compute_edge_info a b
  = Some {| distance_km := haversine_km (lat pa) (lon pa) (lat pb) (lon pb);
            info_time_h := haversine_km (lat pa) (lon pa) (lat pb) (lon pb)
                           / DEFAULT_VESSEL_SPEED_KMH |}.
Proof. intros Ha Hb. unfold compute_edge_info. by rewrite Ha, Hb. Qed.

Lemma compute_edge_info_inv a b info :
  compute_edge_info a b = Some info ->
  exists pa pb,
    PORTS !! a = Some pa /\ PORTS !! b = Some pb
    /\ distance_km info = haversine_km (lat pa) (lon pa) (lat pb) (lon pb).
Proof.
  unfold compute_edge_info.
  destruct (PORTS !! a) as [pa|]; [|done].
  destruct (PORTS !! b) as [pb|]; [|done].
  simpl. intros [= <-]. by exists pa, pb.
Qed.

Lemma edges_of_node_coherent u nbrs :
  forall edges edges',
    coherent edges -> edges_of_node u nbrs edges = Some edges' ->
    coherent edges'.
Proof.
  induction nbrs as [|v nbrs IH]; intros edges edges' Hco; simpl.
  - by intros [= <-].
  - destruct (edges !! sorted_pair u v) eqn:Hkey; [by apply IH|].
    destruct (compute_edge_info u v) as [info|] eqn:Hinfo; [|done]. simpl.
    apply IH. intros key info' Hl.
    destruct (decide (key = sorted_pair u v)) as [->|Hne].
    + rewrite lookup_insert_eq in Hl. injection Hl as <-. by exists u, v.
    + rewrite lookup_insert_ne in Hl by done. by apply Hco.
Qed.

Lemma build_edges_coherent items :
  forall edges edges',
    coherent edges -> build_edges items edges = Some edges' ->
    coherent edges'.
Proof.
  induction items as [|[u nbrs] items IH]; intros edges edges' Hco; simpl.
  - by intros [= <-].
  - destruct (edges_of_node u nbrs edges) as [edges1|] eqn:H1; [|done]. simpl.
    apply IH. by eapply edges_of_node_coherent.
Qed.

(** The cache agrees with the direct computation. *)
Lemma EDGES_coherent : coherent EDGES.
Proof.
  unfold EDGES. destruct (build_edges ADJ_items ∅) as [edges|] eqn:H; simpl.
  - eapply build_edges_coherent; [|exact H]. intros key info Hl.
    by rewrite lookup_empty in Hl.
  - intros key info Hl. by rewrite lookup_empty in Hl.
Qed.

Lemma edges_of_node_total u nbrs :
  known_port u -> Forall known_port nbrs ->
  forall edges, is_Some (edges_of_node u nbrs edges).
Proof.
  intros [pu Hu]. induction 1 as [|v nbrs [pv Hv] _ IH]; intros edges; simpl.
  - by eexists.
  - destruct (edges !! sorted_pair u v); [apply IH|].
    rewrite (compute_edge_info_known u v pu pv) by done. simpl. apply IH.
Qed.

Lemma build_edges_total items :
  Forall (fun item => known_port item.1 /\ Forall known_port item.2) items ->
  forall edges, is_Some (build_edges items edges).
Proof.
  induction 1 as [|[u nbrs] items [Hu Hn] _ IH]; intros edges; simpl.
  - by eexists.
  - destruct (edges_of_node_total u nbrs Hu Hn edges) as [edges1 ->]. simpl.
    apply IH.
Qed.

Lemma known_port_intro code p : PORTS !! code = Some p -> known_port code.
Proof. by exists p. Qed.

(** Every key of [ADJ] and every neighbour it lists is a port. *)
Lemma ADJ_items_known :
  Forall (fun item => known_port item.1 /\ Forall known_port item.2) ADJ_items.
Proof.
  unfold ADJ_items.
  repeat first [ apply Forall_nil_2 | apply Forall_cons_2 | split ];
    simpl; eapply known_port_intro; reflexivity.
Qed.

(** Loading the module does not raise: the precomputation finds every
    port it looks up. *)
Lemma EDGES_loaded : build_edges ADJ_items ∅ = Some EDGES.
Proof.
  unfold EDGES.
  by destruct (build_edges_total ADJ_items ADJ_items_known ∅) as [edges ->].
Qed.

End EdgeFacts.

(** ** Cost and time *)

Module ScoringFacts.

Import Geo GeoFacts EdgeFacts Scoring.
Local Open Scope R_scope.

(** The distance used for an edge between two ports is their great-circle
    distance, whether it comes from the cache or from the fallback. *)
Lemma edge_lookup_known a b pa pb :
  PORTS !! a = Some pa -> PORTS !! b = Some pb ->
  exists info,
    edge_lookup a b = Some info
    /\ distance_km info = haversine_km (lat pa) (lon pa) (lat pb) (lon pb).
Proof.
  intros Ha Hb. unfold edge_lookup.
  destruct (EDGES !! sorted_pair a b) as [info|] eqn:Hl.
  - exists info. split; [done|].
    destruct (EDGES_coherent _ _ Hl) as (u & v & Hkey & Hinfo).
    destruct (compute_edge_info_inv _ _ _ Hinfo) as (pu & pv & Hu & Hv & ->).
    destruct (sorted_pair_cases _ _ _ _ Hkey) as [[-> ->]|[-> ->]];
      simplify_eq; [done|apply haversine_km_sym].
  - rewrite (compute_edge_info_known a b pa pb) by done. by eexists.
Qed.

Lemma edge_distance_known a b pa pb :
  PORTS !! a = Some pa -> PORTS !! b = Some pb ->
  edge_distance (a, b)
  = Some (haversine_km (lat pa) (lon pa) (lat pb) (lon pb)).
Proof.
  intros Ha Hb. unfold edge_distance. simpl.
  destruct (edge_lookup_known a b pa pb Ha Hb) as (info & -> & <-). done.
Qed.

Lemma edge_distance_nonneg ab d : edge_distance ab = Some d -> 0 <= d.
Proof.
  destruct ab as [a b]. unfold edge_distance, edge_lookup. simpl.
  destruct (EDGES !! sorted_pair a b) as [info|] eqn:Hl; simpl.
  - intros [= <-].
    destruct (EDGES_coherent _ _ Hl) as (u & v & _ & Hinfo).
    destruct (compute_edge_info_inv _ _ _ Hinfo) as (pu & pv & _ & _ & ->).
    apply haversine_km_nonneg.
  - destruct (compute_edge_info a b) as [info|] eqn:Hinfo; [|done]. simpl.
    intros [= <-].
    destruct (compute_edge_info_inv _ _ _ Hinfo) as (pu & pv & _ & _ & ->).
    apply haversine_km_nonneg.
Qed.

Lemma edge_distances_nonneg path dists :
  edge_distances path = Some dists -> Forall (fun d => 0 <= d) dists.
Proof.
  unfold edge_distances. intros H%mapM_Some_1.
  induction H as [|ab d pairs dists Hd _ IH]; constructor; [|done].
  by eapply edge_distance_nonneg.
Qed.

(** The first loop adds the handling cost of every node of the path. *)
Lemma add_handling_sum overrides path total_cost :
  add_handling overrides path total_cost
  = total_cost + handling_sum overrides path.
Proof.
  unfold add_handling, handling_sum. revert total_cost.
  induction path as [|node path IH]; intros total_cost; simpl.
  - lra.
  - rewrite IH. simpl. lra.
Qed.

(** The second loop adds the edge costs to the first accumulator and the
    edge times to the second, and raises exactly when a distance is
    missing or a division raises. *)
Lemma edge_loop_sums capacity speed fuel_price pairs :
  forall acc,
    edge_loop capacity speed fuel_price pairs acc
    = dists ← mapM edge_distance pairs;
      times ← edge_times dists speed;
      Some (acc.1 + edge_cost_sum dists fuel_price capacity,
            acc.2 + Rsum times).
Proof.
  unfold edge_times, edge_cost_sum.
  induction pairs as [|[a b] pairs IH]; intros [tc tt]; simpl.
  - f_equal. f_equal; lra.
  - pose proof (eq_refl : edge_distance (a, b) = distance_km <$> edge_lookup a b)
      as Hd.
    destruct (edge_lookup a b) as [info|]; simpl in Hd; rewrite Hd; simpl;
      [|done].
    destruct (py_div (distance_km info) speed) as [t|] eqn:Ht; simpl.
    + rewrite IH. simpl.
      destruct (mapM edge_distance pairs) as [dists|]; simpl; [|done].
      rewrite Ht. simpl.
      destruct (mapM (fun d => py_div d speed) dists) as [times|]; simpl;
        [|done].
      f_equal. f_equal; lra.
    + destruct (mapM edge_distance pairs) as [dists|]; simpl; [|done].
      by rewrite Ht.
Qed.


(** The concrete scenario of the specification: Singapore, Panama City,
    Los Angeles at 1000 tons, 20 km/h, fuel price 0.12 and no override.
    Three handling costs of 500, the two distances at capacity factor 1, and
    the two distances over 20 for the time. *)
Example singapore_panama_los_angeles :
  let d1 := haversine_km 1.3521 103.8198 8.9833 (-79.5167) in
  let d2 := haversine_km 8.9833 (-79.5167) 33.7405 (-118.2775) in
  path_cost_and_time ["SIN"; "PTY"; "LAX"] 1000 ∅ 20 0.12
  = Some {| score_cost := round2 (1500 + (d1 + d2) * 0.12);
            score_time_h := round2 ((d1 + d2) / 20) |}.
Proof.
  intros d1 d2. unfold path_cost_and_time.
  rewrite edge_loop_sums, add_handling_sum. unfold edge_times. simpl.
  rewrite (edge_distance_known "SIN" "PTY" _ _ eq_refl eq_refl).
  rewrite (edge_distance_known "PTY" "LAX" _ _ eq_refl eq_refl). simpl.
  unfold py_div. destruct (Req_dec_T 20 0) as [H|_]; [lra|]. simpl.
  unfold handling_sum, edge_cost_sum, handling, capacity_factor,
    BASE_HANDLING_COST. simpl.
  rewrite Rmax_right by lra. fold d1 d2. clearbody d1 d2.
  rewrite !lookup_empty. simpl.
  f_equal. f_equal; f_equal; lra.
Qed.

Lemma edge_times_defined dists speed :
  speed <> 0 -> edge_times dists speed = Some (map (fun d => d / speed) dists).
Proof.
  intros Hs. unfold edge_times. apply mapM_Some_2.
  induction dists as [|d dists IH]; constructor; [|done].
  unfold py_div. by destruct (Req_dec_T speed 0).
Qed.

Lemma edge_distances_known path :
  Forall known_port path -> is_Some (edge_distances path).
Proof.
  unfold edge_distances. intros Hk. apply mapM_is_Some_2.
  induction Hk as [|a rest [pa Ha] Hrest IH]; simpl; [constructor|].
  destruct Hrest as [|b rest' [pb Hb] Hrest']; [constructor|].
  constructor; [|done]. simpl.
  rewrite (edge_distance_known a b pa pb) by done. by eexists.
Qed.

(** On a path of known ports and with a non-zero speed the scoring does
    not raise. *)
Lemma path_cost_and_time_defined path capacity overrides speed fuel_price :
  Forall known_port path -> speed <> 0 ->
  exists dists,
    edge_distances path = Some dists
    /\ path_cost_and_time path capacity overrides speed fuel_price
       = Some {| score_cost :=
                   round2 (handling_sum overrides path
                           + edge_cost_sum dists fuel_price capacity);
                 score_time_h :=
                   round2 (Rsum (map (fun d => d / speed) dists)) |}.
Proof.
  intros Hk Hs. destruct (edge_distances_known path Hk) as [dists Hd].
  exists dists. split; [done|].
  unfold path_cost_and_time. rewrite edge_loop_sums, add_handling_sum.
  unfold edge_distances in Hd. rewrite Hd. simpl.
  rewrite edge_times_defined by done. simpl.
  do 3 f_equal; lra.
Qed.







Lemma capacity_factor_above capacity :
  500 <= capacity -> capacity_factor capacity = capacity / 1000.
Proof. intros H. unfold capacity_factor. apply Rmax_right. lra. Qed.

Lemma capacity_factor_floor capacity :
  capacity <= 500 -> capacity_factor capacity = 0.5.
Proof. intros H. unfold capacity_factor. apply Rmax_left. lra. Qed.

Lemma edge_cost_sum_factor dists fuel_price capacity :
  edge_cost_sum dists fuel_price capacity
  = Rsum dists * fuel_price * capacity_factor capacity.
Proof.
  unfold edge_cost_sum. induction dists as [|d dists IH]; simpl.
  - lra.
  - rewrite IH. lra.
Qed.

Lemma Rsum_nonneg dists : Forall (fun d => 0 <= d) dists -> 0 <= Rsum dists.
Proof. induction 1; simpl; lra. Qed.

Lemma Rsum_pos dists :
  Forall (fun d => 0 <= d) dists -> Exists (fun d => 0 < d) dists ->
  0 < Rsum dists.
Proof.
  intros Hall Hex. induction Hex as [d dists Hd|d dists _ IH];
    apply Forall_cons in Hall as [H0 Hall]; simpl.
  - pose proof (Rsum_nonneg dists Hall). lra.
  - specialize (IH Hall). lra.
Qed.

(** C6: on a path that has an edge of positive distance, with a positive
    fuel price, the edge-cost component of the cost (what the loop over the
    edges adds, before the rounding) is [edge_cost_sum]; it is strictly
    increasing in the capacity from 500 tons on, and for every capacity of
    at most 500 tons it is the value at the capacity factor 0.5. *)
Theorem edge_cost_in_capacity (path : list string) (dists : list R)
    (speed fuel_price : R) :
  edge_distances path = Some dists ->
  Exists (fun d => 0 < d) dists ->
  0 < fuel_price ->
  speed <> 0 ->
  (forall capacity,
      edge_cost_component path capacity speed fuel_price
      = Some (edge_cost_sum dists fuel_price capacity))
  /\ (forall c1 c2, 500 <= c1 -> c1 < c2 ->
        edge_cost_sum dists fuel_price c1 < edge_cost_sum dists fuel_price c2)
  /\ (forall c, c <= 500 ->
        edge_cost_sum dists fuel_price c
        = Rsum (map (fun d => d * fuel_price * 0.5) dists)).
Proof.
  intros Hd Hpos Hfuel Hspeed.
  pose proof (Rsum_pos dists (edge_distances_nonneg _ _ Hd) Hpos) as Hsum.
  split; [|split].
  - intros capacity. unfold edge_cost_component.
    rewrite edge_loop_sums. unfold edge_distances in Hd. rewrite Hd. simpl.
    rewrite edge_times_defined by done. simpl. f_equal. lra.
  - intros c1 c2 H1 H2. rewrite !edge_cost_sum_factor.
    rewrite !capacity_factor_above by lra.
    assert (0 < Rsum dists * fuel_price) by (by apply Rmult_lt_0_compat).
    nra.
  - intros c Hc. unfold edge_cost_sum. by rewrite capacity_factor_floor.
Qed.

(** The instance of C6 on the edge from Singapore to Panama City, at 20
    km/h and the default fuel price. *)
Lemma edge_cost_in_capacity_witness :
  (forall capacity,
      edge_cost_component ["SIN"; "PTY"] capacity 20 0.12
      = Some (edge_cost_sum [haversine_km 1.3521 103.8198 8.9833 (-79.5167)]
                            0.12 capacity))
  /\ (forall c1 c2, 500 <= c1 -> c1 < c2 ->
        edge_cost_sum [haversine_km 1.3521 103.8198 8.9833 (-79.5167)] 0.12 c1
        < edge_cost_sum [haversine_km 1.3521 103.8198 8.9833 (-79.5167)] 0.12 c2)
  /\ (forall c, c <= 500 ->
        edge_cost_sum [haversine_km 1.3521 103.8198 8.9833 (-79.5167)] 0.12 c
        = Rsum (map (fun d => d * 0.12 * 0.5)
                    [haversine_km 1.3521 103.8198 8.9833 (-79.5167)])).
Proof.
  apply (edge_cost_in_capacity ["SIN"; "PTY"]
           [haversine_km 1.3521 103.8198 8.9833 (-79.5167)] 20 0.12).
  - unfold edge_distances. simpl.
    by rewrite (edge_distance_known "SIN" "PTY" _ _ eq_refl eq_refl).
  - constructor. apply haversine_km_pos; lra.
  - lra.
  - lra.
Defined.

End ScoringFacts.

(** ** Filtering by the deadline and picking the cheapest *)

Module SelectionFacts.

Import Enumeration EnumerationFacts Geo EdgeFacts Scoring ScoringFacts Selection.
Local Open Scope R_scope.

Lemma cost_le_trans c1 c2 c3 : cost_le c1 c2 -> cost_le c2 c3 -> cost_le c1 c3.
Proof. unfold cost_le. lra. Qed.

(** The loop over the paths scores every path and keeps, in order, those
    that meet the deadline; it raises exactly when a scoring does. *)
Lemma collect_feasible paths capacity overrides speed deadline fuel_price :
  forall candidates,
    collect paths capacity overrides speed deadline fuel_price candidates
    = scores ← mapM (fun p => path_cost_and_time p capacity overrides
                                                 speed fuel_price) paths;
      Some (candidates ++ feasible deadline (zip paths scores)).
Proof.
  unfold feasible.
  induction paths as [|p paths IH]; intros candidates; simpl.
  - by rewrite app_nil_r.
  - destruct (path_cost_and_time p capacity overrides speed fuel_price)
      as [info|]; simpl; [|done].
    destruct (Rle_dec (score_time_h info) deadline) as [Hle|Hgt];
      rewrite IH; destruct (mapM _ paths) as [scores|]; simpl; try done.
    + rewrite filter_cons_True by done. simpl. by rewrite <- app_assoc.
    + by rewrite filter_cons_False.
Qed.

(** Every port on a path enumerated over [ADJ] from a known origin is a
    known port. *)
Lemma ADJ_paths_known origin destination max_hops paths :
  known_port origin ->
  enumerate_simple_paths ADJ origin destination max_hops = Some paths ->
  Forall (Forall known_port) paths.
Proof.
  intros Ho.
  apply (enumerate_inv ADJ origin destination max_hops
           (fun f => Forall known_port f.2)); [|by repeat constructor].
  intros node path nbr Hk _ Hin _. simpl in Hk.
  assert (Hn : known_port nbr).
  { destruct (graph_get_listed _ _ _ Hin) as (nbrs & Hl & Hnbr).
    apply elem_of_list_to_map_2 in Hl.
    pose proof ADJ_items_known as Hall.
    rewrite Forall_forall in Hall. destruct (Hall _ Hl) as [_ Hnbrs].
    simpl in Hnbrs. rewrite Forall_forall in Hnbrs. by apply Hnbrs. }
  assert (Forall known_port (path ++ [nbr]));
    [|done].
  apply Forall_app. split; [done|]. by constructor.
Qed.

(** With two known ports and a non-zero speed the request is answered
    with the sorted feasible candidates and the first of them. *)
Lemma api_optimize_routes origin destination capacity speed deadline
    fuel_price overrides :
  known_port origin -> known_port destination -> speed <> 0 ->
  exists paths scores,
    enumerate_simple_paths ADJ origin destination MAX_HOPS = Some paths
    /\ Forall2 (fun p s => path_cost_and_time p capacity overrides speed
                                              fuel_price = Some s)
               paths scores
    /\ api_optimize origin destination capacity speed deadline fuel_price
                    overrides
       = Some (Routes
                 (head (sorted_by_cost (feasible deadline (zip paths scores))))
                 (sorted_by_cost (feasible deadline (zip paths scores)))).
Proof.
  intros Ho Hd Hs.
  destruct (enumerate_terminates ADJ origin destination MAX_HOPS)
    as [paths Hrun].
  pose proof (ADJ_paths_known _ _ _ _ Ho Hrun) as Hk.
  assert (Hsc : is_Some (mapM (fun p => path_cost_and_time p capacity overrides
                                          speed fuel_price) paths)).
  { apply mapM_is_Some_2. eapply Forall_impl; [exact Hk|].
    intros p Hp. simpl.
    destruct (path_cost_and_time_defined p capacity overrides speed fuel_price
                Hp Hs) as (dists & _ & ->). by eexists. }
  destruct Hsc as [scores Hscores].
  exists paths, scores. split; [done|]. split; [by apply mapM_Some_1|].
  unfold api_optimize. destruct Ho as [po ->], Hd as [pd ->].
  unfold select. rewrite Hrun. simpl.
  rewrite collect_feasible, Hscores. simpl. done.
Qed.

Lemma scored_pair paths scores capacity overrides speed fuel_price p s :
  Forall2 (fun p s => path_cost_and_time p capacity overrides speed
                                         fuel_price = Some s)
          paths scores ->
  (p, s) ∈ zip paths scores ->
  path_cost_and_time p capacity overrides speed fuel_price = Some s.
Proof.
  induction 1 as [|p' s' paths scores Hps _ IH]; simpl.
  - by intros ?%elem_of_nil.
  - intros [[= -> ->]|Hin]%elem_of_cons; [done|by apply IH].
Qed.

Lemma elem_of_feasible deadline scored c :
  c ∈ feasible deadline scored
  <-> exists p s, (p, s) ∈ scored /\ score_time_h s <= deadline
                  /\ c = candidate_of p s.
Proof.
  unfold feasible. rewrite list_elem_of_fmap. split.
  - intros ([p s] & -> & [Hle Hin]%list_elem_of_filter). by exists p, s.
  - intros (p & s & Hin & Hle & ->). exists (p, s). split; [done|].
    by apply list_elem_of_filter.
Qed.

Lemma insert_by_cost_Permutation c sorted :
  insert_by_cost c sorted ≡ₚ c :: sorted.
Proof.
  induction sorted as [|c' rest IH]; simpl; [done|].
  destruct (Rle_dec (cost c) (cost c')); [done|].
  rewrite IH. apply Permutation_swap.
Qed.

Lemma sorted_by_cost_Permutation candidates :
  sorted_by_cost candidates ≡ₚ candidates.
Proof.
  unfold sorted_by_cost. induction candidates as [|c rest IH]; simpl; [done|].
  by rewrite insert_by_cost_Permutation, IH.
Qed.

Lemma insert_by_cost_sorted c sorted :
  StronglySorted cost_le sorted ->
  StronglySorted cost_le (insert_by_cost c sorted).
Proof.
  induction 1 as [|c' rest Hrest IH Hall]; simpl.
  - repeat constructor.
  - destruct (Rle_dec (cost c) (cost c')) as [Hle|Hgt].
    + constructor; [by constructor|]. constructor; [done|].
      eapply Forall_impl; [exact Hall|]. intros x Hx.
      by apply (cost_le_trans c c' x).
    + constructor; [done|]. rewrite insert_by_cost_Permutation.
      constructor; [|done]. unfold cost_le. lra.
Qed.

Lemma sorted_by_cost_sorted candidates :
  StronglySorted cost_le (sorted_by_cost candidates).
Proof.
  unfold sorted_by_cost. induction candidates as [|c rest IH]; simpl.
  - constructor.
  - by apply insert_by_cost_sorted.
Qed.

(** Candidates of equal cost keep their order: sorting a list whose costs
    never decrease changes nothing. *)
Lemma sorted_by_cost_stable candidates :
  StronglySorted cost_le candidates -> sorted_by_cost candidates = candidates.
Proof.
  unfold sorted_by_cost. induction 1 as [|c rest Hrest IH Hall]; simpl; [done|].
  rewrite IH. destruct Hall as [|c' rest' Hc' _]; simpl; [done|].
  by destruct (Rle_dec (cost c) (cost c')).
Qed.

Lemma elem_of_sorted_by_cost candidates c :
  c ∈ sorted_by_cost candidates <-> c ∈ candidates.
Proof. by rewrite sorted_by_cost_Permutation. Qed.



(** C5: for two known ports and a non-zero speed, the candidate list
    [api_optimize] returns is the feasible candidates sorted by ascending
    cost; the best candidate is its first element, so its cost is at most
    the cost of every feasible candidate; and when there is no feasible
    candidate the best is absent ([None]), not an error. *)
Theorem cheapest_first (origin destination : string)
    (capacity speed deadline fuel_price : R) (overrides : gmap string R) :
  known_port origin -> known_port destination -> speed <> 0 ->
  exists paths scores best all,
    enumerate_simple_paths ADJ origin destination MAX_HOPS = Some paths
    /\ Forall2 (fun p s => path_cost_and_time p capacity overrides speed
                                              fuel_price = Some s)
               paths scores
    /\ api_optimize origin destination capacity speed deadline fuel_price
                    overrides = Some (Routes best all)
    /\ all ≡ₚ feasible deadline (zip paths scores)
    /\ Sorted cost_le all
    /\ best = head all
    /\ (forall b c, best = Some b -> c ∈ all -> cost b <= cost c)
    /\ (feasible deadline (zip paths scores) = [] -> best = None /\ all = []).
Proof.
  intros Ho Hd Hs.
  destruct (api_optimize_routes origin destination capacity speed deadline
              fuel_price overrides Ho Hd Hs) as (paths & scores & Hrun & Hsc & Hapi).
  exists paths, scores. eexists. eexists.
  split; [done|]. split; [done|]. split; [exact Hapi|].
  split; [apply sorted_by_cost_Permutation|].
  split; [apply StronglySorted_Sorted, sorted_by_cost_sorted|].
  split; [done|]. split.
  - intros b c Hb Hc.
    pose proof (sorted_by_cost_sorted (feasible deadline (zip paths scores)))
      as Hss.
    destruct (sorted_by_cost (feasible deadline (zip paths scores)))
      as [|b' rest]; [done|].
    simpl in Hb. injection Hb as ->.
    apply StronglySorted_inv in Hss as [_ Hall].
    apply elem_of_cons in Hc as [->|Hc].
    + unfold cost_le. lra.
    + rewrite Forall_forall in Hall. by apply Hall.
  - by intros ->.
Qed.

End SelectionFacts.

(** ** Parsing the handling overrides *)

Module OverridesFacts.

Import Overrides.

Section Parse.

Variable py_float : string -> option R.

(** Whether an iteration raises does not depend on the dictionary. *)
Lemma parse_entry_None part (overrides overrides' : gmap string R) :
  parse_entry py_float part overrides = None ->
  parse_entry py_float part overrides' = None.
Proof.
  unfold parse_entry.
  destruct (split ":" part) as [|k [|v [|? ?]]]; try done.
  by destruct (py_float v).
Qed.

Lemma parse_entry_Some part (overrides : gmap string R) :
  well_formed py_float part ->
  is_Some (parse_entry py_float part overrides).
Proof.
  intros [o Ho].
  destruct (parse_entry py_float part overrides) eqn:E; [by eexists|].
  by rewrite (parse_entry_None _ _ ∅ E) in Ho.
Qed.

(** Up to the first malformed token the loop does what entry-by-entry
    parsing does. *)
Lemma parse_loop_well_formed parts :
  Forall (well_formed py_float) parts ->
  forall overrides,
    parse_loop py_float parts overrides
    = parse_lenient py_float parts overrides.
Proof.
  induction 1 as [|part parts Hwf _ IH]; intros overrides; simpl; [done|].
  destruct (parse_entry_Some part overrides Hwf) as [o ->]. apply IH.
Qed.

(** The first malformed token ends the loop. *)
Lemma parse_loop_stops good bad rest :
  Forall (well_formed py_float) good ->
  parse_entry py_float bad ∅ = None ->
  forall overrides,
    parse_loop py_float (good ++ bad :: rest) overrides
    = parse_lenient py_float good overrides.
Proof.
  intros Hgood Hbad.
  induction Hgood as [|part good Hwf _ IH]; intros overrides; simpl.
  - by rewrite (parse_entry_None _ _ overrides Hbad).
  - destruct (parse_entry_Some part overrides Hwf) as [o ->]. apply IH.
Qed.

(** C2, as the code has it: parsing the overrides never aborts the
    request, and it stops at the first malformed token.  When every token
    is well formed, all of them are applied; when the tokens are some well
    formed tokens, then a malformed one, then any others, the result is
    the overrides of the tokens before the malformed one, all applied, and
    nothing of the malformed token and of those after it. *)
Theorem parse_overrides_prefix (overrides_field : string) :
  (Forall (well_formed py_float) (split "," (strip overrides_field)) ->
   strip overrides_field <> EmptyString ->
   parse_overrides py_float overrides_field
   = parse_lenient py_float (split "," (strip overrides_field)) ∅)
  /\ (forall good bad rest,
        split "," (strip overrides_field) = good ++ bad :: rest ->
        Forall (well_formed py_float) good ->
        parse_entry py_float bad ∅ = None ->
        strip overrides_field <> EmptyString ->
        parse_overrides py_float overrides_field
        = parse_lenient py_float good ∅).
Proof.
  split.
  - intros Hall Hne. unfold parse_overrides.
    rewrite bool_decide_eq_false_2 by done.
    by apply parse_loop_well_formed.
  - intros good bad rest Hsplit Hgood Hbad Hne. unfold parse_overrides.
    rewrite bool_decide_eq_false_2 by done.
    rewrite Hsplit. by apply parse_loop_stops.
Qed.

End Parse.

(** C2 as stated fails: in [HKG,SIN:700] the first token has no colon and
    the second is well formed and would set [SIN] to 700, yet the code
    returns a dictionary without [SIN]. *)
Lemma later_override_lost :
  parse_entry float_of_digits "HKG" ∅ = None
  /\ parse_entry float_of_digits "SIN:700" ∅ = Some {[ "SIN" := 700%R ]}
  /\ parse_overrides float_of_digits "HKG,SIN:700" !! "SIN" = None
  /\ parse_lenient float_of_digits (split "," "HKG,SIN:700") ∅ !! "SIN"
     = Some 700%R.
Proof. repeat split; reflexivity. Qed.

(** The instance of C2 on [HKG:600,SIN,DXB:700] and on [HKG:600,DXB:700],
    with [float] read on digit strings: only [HKG] is set in the first, both
    ports in the second. *)
Lemma parse_overrides_prefix_witness :
  parse_overrides float_of_digits "HKG:600,DXB:700"
  = parse_lenient float_of_digits ["HKG:600"; "DXB:700"] ∅
  /\ parse_overrides float_of_digits "HKG:600,SIN,DXB:700"
     = parse_lenient float_of_digits ["HKG:600"] ∅.
Proof.
  split.
  - apply (parse_overrides_prefix float_of_digits "HKG:600,DXB:700").
    + repeat constructor; eexists; reflexivity.
    + discriminate.
  - apply (parse_overrides_prefix float_of_digits "HKG:600,SIN,DXB:700")
      with (bad := "SIN") (rest := ["DXB:700"]).
    + reflexivity.
    + repeat constructor; eexists; reflexivity.
    + reflexivity.
    + discriminate.
Defined.

End OverridesFacts.

(** * Further properties *)

(** ** What the enumeration emits *)

Module EnumerationCoverage.

Import Enumeration EnumerationFacts.

Lemma walk_snoc g node ext last_node nbr :
  walk g node ext -> last (node :: ext) = Some last_node ->
  nbr ∈ graph_get g last_node -> walk g node (ext ++ [nbr]).
Proof.
  revert node. induction ext as [|x ext IH]; intros node Hw Hlast Hin; simpl.
  - injection Hlast as ->. done.
  - destruct Hw as [Hx Hw]. split; [done|]. by apply IH.
Qed.

Lemma emitted_walks g source dest max_hops paths :
  enumerate_simple_paths g source dest max_hops = Some paths ->
  Forall (fun p => exists ext,
            p = source :: ext
            /\ walk g source ext
            /\ last ext = Some dest
            /\ 1 <= Z.of_nat (length ext) <= max_hops + 1)
         paths.
Proof.
  intros Hrun.
  eapply (enumerate_inv g source dest max_hops
            (fun f => exists ext, f.2 = source :: ext /\ walk g source ext
                                  /\ last f.2 = Some f.1));
    [| |exact Hrun].
  - intros node path nbr (ext & Heq & Hw & Hlast) Hlen Hin _.
    simpl in Heq, Hlast. subst path. rewrite length_cons in Hlen.
    assert (Hw' : walk g source (ext ++ [nbr])) by by eapply walk_snoc.
    split.
    + intros ->. exists (ext ++ [dest]).
      split; [done|]. split; [done|]. split; [by rewrite last_snoc|].
      rewrite length_app. simpl. lia.
    + intros _. exists (ext ++ [nbr]).
      split; [done|]. split; [done|].
      change (last ((source :: ext) ++ [nbr]) = Some nbr). apply last_snoc.
  - by exists [].
Qed.

Lemma emitted_NoDup g source dest max_hops paths :
  enumerate_simple_paths g source dest max_hops = Some paths ->
  Forall NoDup paths.
Proof.
  apply (enumerate_inv g source dest max_hops (fun f => NoDup f.2));
    [|by apply NoDup_singleton].
  intros node path nbr Hnd _ _ Hnew. simpl in *.
  assert (NoDup (path ++ [nbr])); [|done].
  apply NoDup_app. split; [done|]. split; [|apply NoDup_singleton].
  intros x Hx ->%list_elem_of_singleton. done.
Qed.

(** Soundness of the enumeration: for every graph, source, destination and
    hop limit the generator runs to its end, and every path it yields starts
    at the source, follows the adjacency lists step by step, ends at the
    destination, and has at least one edge and at most [max_hops + 1]. *)
Theorem enumerate_sound (g : graph) (source dest : string) (max_hops : Z) :
  exists paths,
    enumerate_simple_paths g source dest max_hops = Some paths
    /\ Forall (fun p => exists ext,
                 p = source :: ext
                 /\ walk g source ext
                 /\ last ext = Some dest
                 /\ 1 <= Z.of_nat (length ext) <= max_hops + 1)
              paths.
Proof.
  destruct (enumerate_terminates g source dest max_hops) as [paths Hrun].
  exists paths. split; [done|]. by apply emitted_walks.
Qed.

Section Complete.

Variables (g : graph) (dest : string) (max_hops : Z).

Lemma visit_keeps path nbrs :
  forall st,
    (forall f, f ∈ st.1 -> f ∈ (foldl (visit dest path) st nbrs).1)
    /\ (forall p, p ∈ st.2 -> p ∈ (foldl (visit dest path) st nbrs).2).
Proof.
  induction nbrs as [|nbr nbrs IH]; intros st; simpl; [done|].
  destruct (IH (visit dest path st nbr)) as [IH1 IH2].
  split.
  - intros f Hf. apply IH1. unfold visit.
    repeat case_bool_decide; simpl; try done. by right.
  - intros p Hp. apply IH2. unfold visit.
    repeat case_bool_decide; simpl; try done. apply elem_of_app. by left.
Qed.

Lemma visit_adds path nbrs nbr :
  nbr ∈ nbrs -> nbr ∉ path ->
  forall st,
    (nbr = dest -> path ++ [nbr] ∈ (foldl (visit dest path) st nbrs).2)
    /\ (nbr <> dest -> (nbr, path ++ [nbr]) ∈ (foldl (visit dest path) st nbrs).1).
Proof.
  intros Hin Hnew. induction nbrs as [|x nbrs IH]; intros st; simpl.
  - by apply elem_of_nil in Hin.
  - apply elem_of_cons in Hin as [<-|Hin]; [|by apply IH].
    destruct (visit_keeps path nbrs (visit dest path st nbr)) as [K1 K2].
    split.
    + intros Hd. apply K2. unfold visit.
      rewrite bool_decide_eq_false_2, bool_decide_eq_true_2 by done. simpl.
      apply elem_of_app. right. by left.
    + intros Hd. apply K1. unfold visit.
      rewrite !bool_decide_eq_false_2 by done. simpl. by left.
Qed.

(** Whatever was yielded stays yielded, and every walk that can still be
    completed from an entry of the frontier is yielded in the end. *)
Lemma dfs_loop_complete fuel :
  forall stack out res,
    dfs_loop fuel g dest max_hops stack out = Some res ->
    (forall p, p ∈ out -> p ∈ res)
    /\ (forall node path ext,
          (node, path) ∈ stack ->
          walk g node ext -> last ext = Some dest ->
          NoDup (path ++ ext) ->
          Z.of_nat (length path + length ext) - 1 <= max_hops + 1 ->
          path ++ ext ∈ res).
Proof.
  induction fuel as [|fuel IH]; intros stack out res Hrun;
    destruct stack as [|[n0 p0] rest]; simpl in Hrun; try (by simplify_eq).
  - injection Hrun as <-. split; [done|].
    by intros ??? ?%elem_of_nil.
  - injection Hrun as <-. split; [done|].
    by intros ??? ?%elem_of_nil.
  - case_bool_decide as Hlen.
    + destruct (IH _ _ _ Hrun) as [IH1 IH2]. split; [done|].
      intros node path ext [[= -> ->]|Hin]%elem_of_cons Hw Hlast Hnd Hbound.
      * destruct ext as [|x ext]; [done|]. simpl in Hbound. lia.
      * by apply (IH2 node).
    + destruct (IH _ _ _ Hrun) as [IH1 IH2].
      destruct (visit_keeps p0 (graph_get g n0) (rest, out)) as [K1 K2].
      split; [by intros p Hp; apply IH1, K2|].
      intros node path ext [[= -> ->]|Hin]%elem_of_cons Hw Hlast Hnd Hbound;
        [|by apply (IH2 node); [apply K1|..]].
      destruct ext as [|x ext]; [done|]. destruct Hw as [Hx Hw].
      assert (Hnew : x ∉ p0).
      { apply NoDup_app in Hnd as (_ & Hdisj & _). intros Hxp.
        apply (Hdisj x Hxp). by left. }
      destruct (visit_adds p0 (graph_get g n0) x Hx Hnew (rest, out))
        as [A1 A2].
      destruct ext as [|y ext].
      * injection Hlast as ->. by apply IH1, A1.
      * assert (Hne : x <> dest).
        { intros ->. apply NoDup_app in Hnd as (_ & _ & Hnd).
          apply NoDup_cons in Hnd as [Hnot _]. apply Hnot.
          change (last (y :: ext) = Some dest) in Hlast.
          by apply last_Some_elem_of. }
        replace (p0 ++ x :: y :: ext) with ((p0 ++ [x]) ++ y :: ext)
          by by rewrite <- app_assoc.
        apply (IH2 x); [by apply A2|done|done| |].
        -- by rewrite <- app_assoc.
        -- rewrite length_app. simpl in *. lia.
Qed.

End Complete.

(** Completeness of the enumeration: every walk from the source along the
    adjacency lists that ends at the destination, repeats no node (the source
    included) and has at most [max_hops + 1] edges is among the paths the
    generator yields. *)
Theorem enumerate_complete (g : graph) (source dest : string) (max_hops : Z)
    (ext : list string) :
  walk g source ext ->
  last ext = Some dest ->
  NoDup (source :: ext) ->
  Z.of_nat (length ext) <= max_hops + 1 ->
  exists paths,
    enumerate_simple_paths g source dest max_hops = Some paths
    /\ source :: ext ∈ paths.
Proof.
  intros Hw Hlast Hnd Hlen.
  destruct (enumerate_terminates g source dest max_hops) as [paths Hrun].
  exists paths. split; [done|].
  destruct (dfs_loop_complete g dest max_hops _ _ _ _ Hrun) as [_ Hall].
  apply (Hall source [source] ext); try done.
  - by left.
  - simpl. lia.
Qed.

(** The instance on the route of the specification's scenario: Singapore,
    Panama City, Los Angeles is enumerated. *)
Lemma enumerate_complete_witness :
  exists paths,
    enumerate_simple_paths Geo.ADJ "SIN" "LAX" 6 = Some paths
    /\ ["SIN"; "PTY"; "LAX"] ∈ paths.
Proof.
  apply (enumerate_complete Geo.ADJ "SIN" "LAX" 6 ["PTY"; "LAX"]).
  - simpl. split; [|split; [|done]]; compute_done.
  - reflexivity.
  - compute_done.
  - simpl. lia.
Defined.

(** *** No path is yielded twice *)

Definition incomparable (p q : list string) : Prop :=
  ~ p `prefix_of` q /\ ~ q `prefix_of` p.

Lemma antichain_Permutation l l' : l ≡ₚ l' -> antichain l -> antichain l'.
Proof.
  induction 1 as [|x l l' Hp IH|x y l|l l' l'' _ IH1 _ IH2]; simpl.
  - done.
  - intros [Hx Hl]. split; [by rewrite <- Hp|by apply IH].
  - intros [Hy [Hx Hl]]. apply Forall_cons in Hy as [[Hyx Hxy] Hy].
    split; [|done]. constructor; [|done]. by split.
  - intros. by apply IH2, IH1.
Qed.

Lemma antichain_NoDup l : antichain l -> NoDup l.
Proof.
  induction l as [|p l IH]; simpl; [constructor|].
  intros [Hp Hl]. constructor; [|by apply IH].
  intros Hin. rewrite Forall_forall in Hp. by destruct (Hp p Hin) as [[] _].
Qed.

(** The paths of a state of the loop: those of the frontier, then those
    yielded. *)
Definition state_paths (st : list frame * list (list string))
    : list (list string) :=
  (snd <$> st.1) ++ st.2.

Lemma state_paths_yield (st : list frame * list (list string)) p :
  p :: state_paths st ≡ₚ state_paths (st.1, st.2 ++ [p]).
Proof.
  unfold state_paths. simpl. rewrite app_assoc. apply Permutation_cons_append.
Qed.

Lemma incomparable_child path nbr q :
  incomparable path q -> incomparable (path ++ [nbr]) q.
Proof.
  intros [H1 H2]. split.
  - intros H. apply H1. by eapply prefix_app_l.
  - intros H.
    destruct (prefix_weak_total q path (path ++ [nbr]) H) as [?|?]; [|done..].
    by apply prefix_app_r.
Qed.

Lemma incomparable_siblings path n1 n2 :
  n1 <> n2 -> incomparable (path ++ [n1]) (path ++ [n2]).
Proof.
  intros Hne. split; intros H%prefix_app_inv%prefix_cons_inv_1; congruence.
Qed.

Section Distinct.

Variables (g : graph) (dest : string) (max_hops : Z).

Lemma visit_antichain path nbrs :
  NoDup nbrs ->
  forall st,
    antichain (state_paths st) ->
    Forall (fun q => incomparable path q
                     \/ exists n, q = path ++ [n] /\ n ∉ nbrs)
           (state_paths st) ->
    antichain (state_paths (foldl (visit dest path) st nbrs)).
Proof.
  induction 1 as [|nbr nbrs Hnew Hnd IH]; intros st Hanti Hall; simpl; [done|].
  assert (Hweak : Forall (fun q => incomparable path q
                                   \/ exists n, q = path ++ [n] /\ n ∉ nbrs)
                         (state_paths st)).
  { eapply Forall_impl; [exact Hall|]. intros q [?|(n & -> & Hn)]; [by left|].
    right. exists n. split; [done|]. intros ?. apply Hn. by right. }
  assert (Hchild : antichain ((path ++ [nbr]) :: state_paths st)).
  { simpl. split; [|done]. eapply Forall_impl; [exact Hall|].
    intros q [Hq|(n & -> & Hn)]; [by apply incomparable_child|].
    apply incomparable_siblings. intros ->. apply Hn. by left. }
  assert (Hchild' : Forall (fun q => incomparable path q
                                     \/ exists n, q = path ++ [n] /\ n ∉ nbrs)
                           ((path ++ [nbr]) :: state_paths st)).
  { constructor; [|done]. right. by exists nbr. }
  apply IH; unfold visit; repeat case_bool_decide; try done.
  - eapply antichain_Permutation; [apply state_paths_yield|exact Hchild].
  - by rewrite <- state_paths_yield.
Qed.

Hypothesis lists_NoDup : forall node, NoDup (graph_get g node).

Lemma dfs_loop_antichain fuel :
  forall stack out res,
    antichain (state_paths (stack, out)) ->
    dfs_loop fuel g dest max_hops stack out = Some res ->
    antichain res.
Proof.
  induction fuel as [|fuel IH]; intros stack out res Hanti Hrun;
    destruct stack as [|[n0 p0] rest]; simpl in Hrun; try (by simplify_eq).
  assert (Hsplit : Forall (incomparable p0) (state_paths (rest, out))
                   /\ antichain (state_paths (rest, out))) by exact Hanti.
  destruct Hsplit as [Hp0 Hrest].
  case_bool_decide as Hlen; [by eapply IH|].
  eapply IH; [|exact Hrun].
  rewrite <- surjective_pairing.
  apply visit_antichain; [apply lists_NoDup|done|].
  eapply Forall_impl; [exact Hp0|]. intros q Hq. by left.
Qed.

End Distinct.

(** On a graph whose adjacency lists repeat no neighbour, the generator
    yields no path twice. *)
Theorem enumerate_distinct (g : graph) (source dest : string) (max_hops : Z) :
  (forall node, NoDup (graph_get g node)) ->
  exists paths,
    enumerate_simple_paths g source dest max_hops = Some paths
    /\ NoDup paths.
Proof.
  intros Hlists.
  destruct (enumerate_terminates g source dest max_hops) as [paths Hrun].
  exists paths. split; [done|]. apply antichain_NoDup.
  eapply (dfs_loop_antichain g dest max_hops Hlists); [|exact Hrun].
  simpl. split; constructor.
Qed.

Lemma ADJ_lists_NoDup node : NoDup (graph_get Geo.ADJ node).
Proof.
  unfold graph_get. destruct (Geo.ADJ !! node) as [nbrs|] eqn:Hl; simpl.
  - apply elem_of_list_to_map_2 in Hl.
    assert (Hall : Forall (fun item => NoDup item.2) Geo.ADJ_items)
      by compute_done.
    rewrite Forall_forall in Hall. apply (Hall _ Hl).
  - constructor.
Qed.

(** The instance on the graph of the application. *)
Lemma enumerate_distinct_witness :
  exists paths,
    enumerate_simple_paths Geo.ADJ "SIN" "LAX" 6 = Some paths /\ NoDup paths.
Proof.
  apply (enumerate_distinct Geo.ADJ "SIN" "LAX" 6). apply ADJ_lists_NoDup.
Defined.

(** The hypothesis is needed: a neighbour listed twice is reached twice. *)
Example repeated_neighbour_repeats :
  enumerate_simple_paths {[ "A" := ["B"; "B"] ]} "A" "B" 6
  = Some [["A"; "B"]; ["A"; "B"]].
Proof. vm_compute. reflexivity. Qed.

End EnumerationCoverage.

(** ** The distances the scoring uses *)

Module EdgeCoverage.

Import Geo GeoFacts EdgeFacts Scoring ScoringFacts.
Local Open Scope R_scope.

Lemma atan2_quadrant y x : 0 <= y -> 0 <= x -> atan2 y x <= PI / 2.
Proof.
  intros Hy Hx. unfold atan2. pose proof PI_RGT_0.
  repeat destruct (Rlt_dec _ _); try lra.
  pose proof (atan_bound (y / x)). lra.
Qed.

Lemma haversine_km_le lat1 lon1 lat2 lon2 :
  haversine_km lat1 lon1 lat2 lon2 <= 6371 * 4.
Proof.
  unfold haversine_km. cbv zeta.
  pose proof (atan2_quadrant (sqrt (haversine_a lat1 lon1 lat2 lon2))
                (sqrt (1 - haversine_a lat1 lon1 lat2 lon2))
                (sqrt_pos _) (sqrt_pos _)).
  pose proof PI_4. lra.
Qed.

(** The distance between two points never exceeds half the circumference
    of the sphere of radius 6371 km. *)
Theorem haversine_km_half_circumference (lat1 lon1 lat2 lon2 : R) :
  haversine_km lat1 lon1 lat2 lon2 <= 6371 * PI.
Proof.
  unfold haversine_km. cbv zeta.
  pose proof (atan2_quadrant (sqrt (haversine_a lat1 lon1 lat2 lon2))
                (sqrt (1 - haversine_a lat1 lon1 lat2 lon2))
                (sqrt_pos _) (sqrt_pos _)).
  lra.
Qed.

Lemma sorted_pair_comm a b : sorted_pair a b = sorted_pair b a.
Proof.
  unfold sorted_pair.
  destruct (String.leb a b) eqn:Hab, (String.leb b a) eqn:Hba; try done.
  - by rewrite (String.leb_antisym a b Hab Hba).
  - destruct (String.leb_total a b); congruence.
Qed.

Lemma compute_edge_info_distance_sym a b :
  distance_km <$> compute_edge_info a b = distance_km <$> compute_edge_info b a.
Proof.
  unfold compute_edge_info.
  destruct (PORTS !! a) as [pa|], (PORTS !! b) as [pb|]; simpl; try done.
  by rewrite haversine_km_sym.
Qed.

(** The distance used for an edge does not depend on its direction, for
    known and unknown ports alike: the cache is keyed by the sorted pair, and
    the fallback computes a symmetric distance or raises in both
    directions. *)
Theorem edge_distance_symmetric (a b : string) :
  edge_distance (a, b) = edge_distance (b, a).
Proof.
  unfold edge_distance, edge_lookup. simpl.
  rewrite (sorted_pair_comm b a).
  destruct (EDGES !! sorted_pair a b); [done|].
  apply compute_edge_info_distance_sym.
Qed.

Lemma compute_edge_info_full a b info :
  compute_edge_info a b = Some info ->
  exists pa pb,
    PORTS !! a = Some pa /\ PORTS !! b = Some pb
    /\ distance_km info = haversine_km (lat pa) (lon pa) (lat pb) (lon pb)
    /\ info_time_h info = distance_km info / DEFAULT_VESSEL_SPEED_KMH.
Proof.
  unfold compute_edge_info.
  destruct (PORTS !! a) as [pa|]; [|done].
  destruct (PORTS !! b) as [pb|]; [|done].
  simpl. intros [= <-]. by exists pa, pb.
Qed.

Lemma edges_of_node_grows u nbrs :
  forall edges edges',
    edges_of_node u nbrs edges = Some edges' ->
    (forall key info, edges !! key = Some info -> edges' !! key = Some info)
    /\ (forall v, v ∈ nbrs -> is_Some (edges' !! sorted_pair u v)).
Proof.
  induction nbrs as [|v nbrs IH]; intros edges edges'; simpl.
  - intros [= <-]. split; [done|]. by intros ? ?%elem_of_nil.
  - destruct (edges !! sorted_pair u v) as [i|] eqn:Hkey.
    + intros Hrun. destruct (IH _ _ Hrun) as [K A]. split; [done|].
      intros w [->|Hw]%elem_of_cons; [|by apply A].
      exists i. by apply K.
    + destruct (compute_edge_info u v) as [info|]; [|done]. simpl.
      intros Hrun. destruct (IH _ _ Hrun) as [K A]. split.
      * intros key i Hi. apply K. rewrite lookup_insert_ne; [done|].
        intros <-. congruence.
      * intros w [->|Hw]%elem_of_cons; [|by apply A].
        exists info. apply K. apply lookup_insert_eq.
Qed.

Lemma build_edges_grows items :
  forall edges edges',
    build_edges items edges = Some edges' ->
    (forall key info, edges !! key = Some info -> edges' !! key = Some info)
    /\ (forall u nbrs v, (u, nbrs) ∈ items -> v ∈ nbrs ->
          is_Some (edges' !! sorted_pair u v)).
Proof.
  induction items as [|[u0 nbrs0] items IH]; intros edges edges'; simpl.
  - intros [= <-]. split; [done|]. by intros ??? ?%elem_of_nil.
  - destruct (edges_of_node u0 nbrs0 edges) as [edges1|] eqn:H1; [|done].
    simpl. intros Hrun.
    destruct (edges_of_node_grows _ _ _ _ H1) as [K1 A1].
    destruct (IH _ _ Hrun) as [K A]. split.
    + intros key info Hi. by apply K, K1.
    + intros u nbrs v [[= -> ->]|Hin]%elem_of_cons Hv; [|by eapply A].
      destruct (A1 v Hv) as [i Hi]. exists i. by apply K.
Qed.

(** The precomputation, when it does not raise, leaves an entry for every
    listed adjacency, under the sorted pair of its two ports; the entry holds
    the great-circle distance between the two ports and that distance over
    the default speed. *)
Theorem build_edges_covers (items : list (string * list string))
    (edges : gmap (string * string) edge_info) (u v : string)
    (nbrs : list string) :
  build_edges items ∅ = Some edges ->
  (u, nbrs) ∈ items -> v ∈ nbrs ->
  exists info pu pv,
    edges !! sorted_pair u v = Some info
    /\ PORTS !! u = Some pu /\ PORTS !! v = Some pv
    /\ distance_km info = haversine_km (lat pu) (lon pu) (lat pv) (lon pv)
    /\ info_time_h info = distance_km info / DEFAULT_VESSEL_SPEED_KMH.
Proof.
  intros Hrun Hitem Hv.
  destruct (build_edges_grows _ _ _ Hrun) as [_ Hadd].
  destruct (Hadd u nbrs v Hitem Hv) as [info Hinfo].
  assert (Hco : coherent edges).
  { eapply build_edges_coherent; [|exact Hrun].
    intros key i Hi. by rewrite lookup_empty in Hi. }
  destruct (Hco _ _ Hinfo) as (u' & v' & Hkey & Hcomp).
  destruct (compute_edge_info_full _ _ _ Hcomp)
    as (pu' & pv' & Hu' & Hv' & Hdist & Htime).
  destruct (sorted_pair_cases _ _ _ _ Hkey) as [[-> ->]|[-> ->]].
  - by exists info, pu', pv'.
  - exists info, pv', pu'. repeat split; try done.
    by rewrite haversine_km_sym.
Qed.

(** The instance on the table of the application: the entry of the
    adjacency from Panama City to Singapore. *)
Lemma build_edges_covers_witness :
  exists info pu pv,
    EDGES !! sorted_pair "PTY" "SIN" = Some info
    /\ PORTS !! "PTY" = Some pu /\ PORTS !! "SIN" = Some pv
    /\ distance_km info = haversine_km (lat pu) (lon pu) (lat pv) (lon pv)
    /\ info_time_h info = distance_km info / DEFAULT_VESSEL_SPEED_KMH.
Proof.
  apply (build_edges_covers ADJ_items EDGES "PTY" "SIN" ["SIN"; "LAX"]).
  - apply EDGES_loaded.
  - compute_done.
  - compute_done.
Defined.

End EdgeCoverage.

(** ** What the score depends on *)

Module ScoringCoverage.

Import Geo GeoFacts EdgeFacts Scoring ScoringFacts.
Local Open Scope R_scope.

(** The time of a path depends on the path and the speed only: neither the
    capacity, nor the overrides, nor the fuel price change it, nor whether the
    scoring raises. *)
Theorem time_ignores_cost_inputs (path : list string)
    (capacity capacity' : R) (overrides overrides' : gmap string R)
    (speed fuel_price fuel_price' : R) :
  score_time_h <$> path_cost_and_time path capacity overrides speed fuel_price
  = score_time_h <$> path_cost_and_time path capacity' overrides' speed
                                        fuel_price'.
Proof.
  unfold path_cost_and_time. rewrite !edge_loop_sums.
  destruct (mapM edge_distance (consecutive path)) as [dists|]; simpl; [|done].
  by destruct (edge_times dists speed) as [times|].
Qed.

Lemma handling_insert_ne overrides k v node :
  node <> k -> handling (<[k := v]> overrides) node = handling overrides node.
Proof. intros Hne. unfold handling. by rewrite lookup_insert_ne. Qed.

Lemma handling_sum_frame overrides k v path :
  k ∉ path ->
  handling_sum (<[k := v]> overrides) path = handling_sum overrides path.
Proof.
  unfold handling_sum. induction path as [|node path IH]; intros Hk; simpl.
  - done.
  - apply not_elem_of_cons in Hk as [Hne Hk].
    rewrite handling_insert_ne by done. by rewrite IH.
Qed.

(** An override for a port that is not on the path changes nothing of the
    score of the path. *)
Theorem override_off_path (path : list string) (capacity : R)
    (overrides : gmap string R) (speed fuel_price : R) (k : string) (v : R) :
  k ∉ path ->
  path_cost_and_time path capacity (<[k := v]> overrides) speed fuel_price
  = path_cost_and_time path capacity overrides speed fuel_price.
Proof.
  intros Hk. unfold path_cost_and_time.
  by rewrite !add_handling_sum, handling_sum_frame.
Qed.

(** The instance: an override for Hong Kong and the route from Singapore
    to Los Angeles through Panama City. *)
Lemma override_off_path_witness :
  path_cost_and_time ["SIN"; "PTY"; "LAX"] 1000 (<["HKG" := 999]> ∅) 20 0.12
  = path_cost_and_time ["SIN"; "PTY"; "LAX"] 1000 ∅ 20 0.12.
Proof.
  apply (override_off_path ["SIN"; "PTY"; "LAX"] 1000 ∅ 20 0.12 "HKG" 999).
  compute_done.
Defined.

Lemma handling_sum_shift overrides k v path :
  NoDup path -> k ∈ path ->
  handling_sum (<[k := v]> overrides) path
  = handling_sum overrides path + (v - handling overrides k).
Proof.
  induction 1 as [|node path Hnot Hnd IH]; intros Hk.
  - by apply elem_of_nil in Hk.
  - change (handling (<[k := v]> overrides) node
            + handling_sum (<[k := v]> overrides) path
            = handling overrides node + handling_sum overrides path
              + (v - handling overrides k)).
    destruct (decide (node = k)) as [->|Hne].
    + rewrite handling_sum_frame by done.
      unfold handling at 1. rewrite lookup_insert_eq. simpl. lra.
    + apply elem_of_cons in Hk as [->|Hk]; [done|].
      rewrite handling_insert_ne, IH by done. lra.
Qed.

(** On a path without repetition, an override for a port of the path
    shifts the cost, before it is rounded, by the override minus the handling
    cost the port had; the time is unchanged. *)
Theorem override_on_path (path : list string) (dists : list R)
    (capacity : R) (overrides : gmap string R) (speed fuel_price : R)
    (k : string) (v : R) :
  edge_distances path = Some dists -> speed <> 0 ->
  NoDup path -> k ∈ path ->
  path_cost_and_time path capacity overrides speed fuel_price
  = Some {| score_cost :=
              round2 (handling_sum overrides path
                      + edge_cost_sum dists fuel_price capacity);
            score_time_h := round2 (Rsum (map (fun d => d / speed) dists)) |}
  /\ path_cost_and_time path capacity (<[k := v]> overrides) speed fuel_price
     = Some {| score_cost :=
                 round2 (handling_sum overrides path
                         + edge_cost_sum dists fuel_price capacity
                         + (v - handling overrides k));
               score_time_h :=
                 round2 (Rsum (map (fun d => d / speed) dists)) |}.
Proof.
  intros Hd Hs Hnd Hk. unfold path_cost_and_time.
  rewrite !edge_loop_sums, !add_handling_sum.
  unfold edge_distances in Hd. rewrite Hd. simpl.
  rewrite edge_times_defined by done. simpl.
  rewrite (handling_sum_shift overrides k v path Hnd Hk).
  split; do 3 f_equal; lra.
Qed.

(** The instance: the edge from Singapore to Hong Kong, with Hong Kong
    overridden to 999. *)
Lemma override_on_path_witness :
  let d := haversine_km 1.3521 103.8198 22.3193 114.1694 in
  path_cost_and_time ["SIN"; "HKG"] 1000 ∅ 20 0.12
  = Some {| score_cost :=
              round2 (handling_sum ∅ ["SIN"; "HKG"] + edge_cost_sum [d] 0.12 1000);
            score_time_h := round2 (Rsum (map (fun d => d / 20) [d])) |}
  /\ path_cost_and_time ["SIN"; "HKG"] 1000 (<["HKG" := 999]> ∅) 20 0.12
     = Some {| score_cost :=
                 round2 (handling_sum ∅ ["SIN"; "HKG"]
                         + edge_cost_sum [d] 0.12 1000
                         + (999 - handling ∅ "HKG"));
               score_time_h := round2 (Rsum (map (fun d => d / 20) [d])) |}.
Proof.
  apply (override_on_path ["SIN"; "HKG"]
           [haversine_km 1.3521 103.8198 22.3193 114.1694]
           1000 ∅ 20 0.12 "HKG" 999).
  - unfold edge_distances. simpl.
    by rewrite (edge_distance_known "SIN" "HKG" _ _ eq_refl eq_refl).
  - lra.
  - compute_done.
  - compute_done.
Defined.

Lemma round2_nonneg x : 0 <= x -> 0 <= round2 x.
Proof.
  intros Hx. unfold round2, round_half_even. cbv zeta.
  assert (Hn : (0 <= Zfloor (x * 100))%Z) by (apply Zfloor_lub; simpl; lra).
  assert (Hr : forall z, (0 <= z)%Z -> 0 <= IZR z / 100).
  { intros z Hz. apply IZR_le in Hz. lra. }
  repeat destruct (Rlt_dec _ _); try destruct (Z.even _); apply Hr; lia.
Qed.

Lemma round2_upper x : round2 x <= x + 1 / 200.
Proof.
  unfold round2, round_half_even. cbv zeta.
  pose proof (Zfloor_bound (x * 100)) as [Hlo Hhi].
  repeat destruct (Rlt_dec _ _); try destruct (Z.even _);
    rewrite ?plus_IZR; lra.
Qed.

Lemma capacity_factor_floor_bound capacity : 0.5 <= capacity_factor capacity.
Proof. unfold capacity_factor. apply Rmax_l. Qed.

Lemma handling_sum_nonneg overrides path :
  (forall node v, overrides !! node = Some v -> 0 <= v) ->
  0 <= handling_sum overrides path.
Proof.
  intros Hov. unfold handling_sum.
  induction path as [|node path IH]; simpl; [lra|].
  assert (0 <= handling overrides node).
  { unfold handling. destruct (overrides !! node) as [v|] eqn:E; simpl.
    - by eapply Hov.
    - unfold BASE_HANDLING_COST. lra. }
  lra.
Qed.

Lemma edge_cost_sum_nonneg dists fuel_price capacity :
  Forall (fun d => 0 <= d) dists -> 0 <= fuel_price ->
  0 <= edge_cost_sum dists fuel_price capacity.
Proof.
  intros Hd Hf. rewrite edge_cost_sum_factor.
  pose proof (Rsum_nonneg dists Hd).
  pose proof (capacity_factor_floor_bound capacity).
  apply Rmult_le_pos; [by apply Rmult_le_pos|lra].
Qed.

(** For a path of known ports, a positive speed, a fuel price and overrides
    that are not negative, the scoring does not raise and neither the cost
    nor the time is negative, whatever the capacity. *)
Theorem score_nonnegative (path : list string) (capacity : R)
    (overrides : gmap string R) (speed fuel_price : R) :
  Forall known_port path ->
  0 < speed -> 0 <= fuel_price ->
  (forall node v, overrides !! node = Some v -> 0 <= v) ->
  exists s,
    path_cost_and_time path capacity overrides speed fuel_price = Some s
    /\ 0 <= score_cost s /\ 0 <= score_time_h s.
Proof.
  intros Hk Hs Hf Hov.
  destruct (path_cost_and_time_defined path capacity overrides speed fuel_price
              Hk) as (dists & Hd & ->); [lra|].
  pose proof (edge_distances_nonneg _ _ Hd) as Hnn.
  eexists. split; [done|]. simpl. split; apply round2_nonneg.
  - pose proof (handling_sum_nonneg overrides path Hov).
    pose proof (edge_cost_sum_nonneg dists fuel_price capacity Hnn Hf). lra.
  - apply Rsum_nonneg. apply Forall_map.
    eapply Forall_impl; [exact Hnn|]. intros d Hd0. simpl.
    apply Rle_mult_inv_pos; done.
Qed.

(** The instance: Singapore to Los Angeles through Panama City, with a
    negative capacity. *)
Lemma score_nonnegative_witness :
  exists s,
    path_cost_and_time ["SIN"; "PTY"; "LAX"] (-1) ∅ 20 0.12 = Some s
    /\ 0 <= score_cost s /\ 0 <= score_time_h s.
Proof.
  apply (score_nonnegative ["SIN"; "PTY"; "LAX"] (-1) ∅ 20 0.12).
  - repeat constructor; eapply known_port_intro; reflexivity.
  - lra.
  - lra.
  - intros node v Hv. by rewrite lookup_empty in Hv.
Defined.

End ScoringCoverage.

(** ** What the two routes answer *)

Module SelectionCoverage.

Import Enumeration EnumerationFacts EnumerationCoverage.
Import Geo GeoFacts EdgeFacts EdgeCoverage.
Import Scoring ScoringFacts ScoringCoverage Selection SelectionFacts.
Import Overrides.
Local Open Scope R_scope.

(** Ties are broken by the order of enumeration: the first element of the
    sorted list is the first candidate of least cost.  Every candidate before
    it in the unsorted list costs strictly more, every candidate after it
    costs at least as much; and there is none only for the empty list. *)
Theorem best_is_first_minimum (candidates : list candidate) :
  match head (sorted_by_cost candidates) with
  | None => candidates = []
  | Some b =>
      exists before after,
        candidates = before ++ b :: after
        /\ Forall (fun c => cost b < cost c) before
        /\ Forall (fun c => cost b <= cost c) after
  end.
Proof.
  unfold sorted_by_cost. induction candidates as [|c rest IH]; simpl; [done|].
  destruct (foldr insert_by_cost [] rest) as [|b' sorted] eqn:Hs; simpl.
  - simpl in IH. subst rest. exists [], []. by repeat split.
  - simpl in IH. destruct IH as (before & after & -> & Hb & Ha).
    destruct (Rle_dec (cost c) (cost b')) as [Hle|Hgt]; simpl.
    + exists [], (before ++ b' :: after). split; [done|]. split; [done|].
      apply Forall_app. split.
      * eapply Forall_impl; [exact Hb|]. intros x Hx. simpl in Hx. lra.
      * constructor; [done|].
        eapply Forall_impl; [exact Ha|]. intros x Hx. simpl in Hx. lra.
    + exists (c :: before), after. split; [done|]. split; [|done].
      constructor; [lra|done].
Qed.

Lemma scored_member {A B} (R : A -> B -> Prop) l k x :
  Forall2 R l k -> x ∈ l -> exists y, (x, y) ∈ zip l k.
Proof.
  induction 1 as [|x' y' l k _ _ IH]; simpl.
  - by intros ?%elem_of_nil.
  - intros [->|Hin]%elem_of_cons.
    + exists y'. by left.
    + destruct (IH Hin) as [y Hy]. exists y. by right.
Qed.

Lemma zip_member_l {A B} (l : list A) (k : list B) x y :
  (x, y) ∈ zip l k -> x ∈ l.
Proof.
  revert k. induction l as [|x' l IH]; intros [|y' k]; simpl;
    try (by intros ?%elem_of_nil).
  intros [[= -> ->]|Hin]%elem_of_cons; [by left|].
  right. by eapply IH.
Qed.

(** For two known ports and a non-zero speed, every candidate
    [api_optimize] returns is a route of the graph [ADJ]: its path starts at
    the origin, follows the adjacency lists, ends at the destination, has
    between one and seven edges and repeats no port; its cost and time are
    the score of its path, and its time meets the deadline. *)
Theorem api_candidates_are_routes (origin destination : string)
    (capacity speed deadline fuel_price : R) (overrides : gmap string R) :
  known_port origin -> known_port destination -> speed <> 0 ->
  exists best all,
    api_optimize origin destination capacity speed deadline fuel_price
                 overrides = Some (Routes best all)
    /\ Forall (fun c =>
                 (exists ext,
                     path c = origin :: ext
                     /\ walk ADJ origin ext
                     /\ last ext = Some destination
                     /\ (1 <= Z.of_nat (length ext) <= 7)%Z)
                 /\ NoDup (path c)
                 /\ path_cost_and_time (path c) capacity overrides speed
                                       fuel_price
                    = Some {| score_cost := cost c; score_time_h := time_h c |}
                 /\ time_h c <= deadline)
              all.
Proof.
  intros Ho Hd Hs.
  destruct (api_optimize_routes origin destination capacity speed deadline
              fuel_price overrides Ho Hd Hs) as (paths & scores & Hrun & Hsc & Hapi).
  eexists. eexists. split; [exact Hapi|].
  rewrite Forall_forall.
  intros c (p & s & Hin & Hle & ->)%elem_of_sorted_by_cost%elem_of_feasible.
  pose proof (zip_member_l _ _ _ _ Hin) as Hp.
  pose proof (emitted_walks _ _ _ _ _ Hrun) as Hw.
  pose proof (emitted_NoDup _ _ _ _ _ Hrun) as Hn.
  rewrite Forall_forall in Hw, Hn.
  split; [exact (Hw p Hp)|]. split; [exact (Hn p Hp)|]. split; [|done].
  simpl. rewrite (scored_pair _ _ _ _ _ _ _ _ Hsc Hin). by destruct s.
Qed.

(** A feasible walk gives a best candidate: it is in the returned list,
    meets the deadline and costs no more than the walk. *)
Lemma api_best_exists origin destination capacity speed deadline fuel_price
    overrides ext s :
  known_port origin -> known_port destination -> speed <> 0 ->
  walk ADJ origin ext -> last ext = Some destination ->
  NoDup (origin :: ext) -> (Z.of_nat (length ext) <= 7)%Z ->
  path_cost_and_time (origin :: ext) capacity overrides speed fuel_price
  = Some s ->
  score_time_h s <= deadline ->
  exists b all,
    api_optimize origin destination capacity speed deadline fuel_price
                 overrides = Some (Routes (Some b) all)
    /\ b ∈ all
    /\ cost b <= score_cost s
    /\ time_h b <= deadline.
Proof.
  intros Ho Hd Hs Hw Hlast Hnd Hlen Hscore Hle.
  destruct (api_optimize_routes origin destination capacity speed deadline
              fuel_price overrides Ho Hd Hs) as (paths & scores & Hrun & Hsc & Hapi).
  destruct (dfs_loop_complete ADJ destination MAX_HOPS _ _ _ _ Hrun)
    as [_ Hall].
  assert (Hp : origin :: ext ∈ paths).
  { apply (Hall origin [origin] ext); try done.
    - by left.
    - unfold MAX_HOPS. simpl. lia. }
  destruct (scored_member _ _ _ _ Hsc Hp) as [s' Hin].
  pose proof (scored_pair _ _ _ _ _ _ _ _ Hsc Hin) as Hs'.
  rewrite Hscore in Hs'. injection Hs' as <-.
  assert (Hc : candidate_of (origin :: ext) s
               ∈ sorted_by_cost (feasible deadline (zip paths scores))).
  { apply elem_of_sorted_by_cost, elem_of_feasible.
    by exists (origin :: ext), s. }
  pose proof (sorted_by_cost_sorted (feasible deadline (zip paths scores)))
    as Hss.
  assert (Hb : forall b, b ∈ sorted_by_cost (feasible deadline (zip paths scores))
                         -> time_h b <= deadline).
  { intros b (p & sb & _ & Hb & ->)%elem_of_sorted_by_cost%elem_of_feasible.
    done. }
  destruct (sorted_by_cost (feasible deadline (zip paths scores)))
    as [|b rest]; [by apply elem_of_nil in Hc|].
  exists b, (b :: rest). split; [exact Hapi|]. split; [by left|]. split.
  - apply StronglySorted_inv in Hss as [_ Hle_all].
    apply elem_of_cons in Hc as [<-|Hc]; [simpl; lra|].
    rewrite Forall_forall in Hle_all. apply (Hle_all _ Hc).
  - apply Hb. by left.
Qed.

(** The best candidate is optimal among the routes the enumeration covers:
    for two known ports and a non-zero speed, whenever some walk of [ADJ] from
    the origin to the destination, without repetition and of at most seven
    edges, has a score whose time meets the deadline, [api_optimize] returns a
    best candidate, which meets the deadline and costs no more than that
    walk. *)
Theorem api_best_is_optimal (origin destination : string)
    (capacity speed deadline fuel_price : R) (overrides : gmap string R)
    (ext : list string) (s : score) :
  known_port origin -> known_port destination -> speed <> 0 ->
  walk ADJ origin ext -> last ext = Some destination ->
  NoDup (origin :: ext) -> (Z.of_nat (length ext) <= 7)%Z ->
  path_cost_and_time (origin :: ext) capacity overrides speed fuel_price
  = Some s ->
  score_time_h s <= deadline ->
  exists b all,
    api_optimize origin destination capacity speed deadline fuel_price
                 overrides = Some (Routes (Some b) all)
    /\ cost b <= score_cost s
    /\ time_h b <= deadline.
Proof.
  intros Ho Hd Hs Hw Hlast Hnd Hlen Hscore Hle.
  destruct (api_best_exists origin destination capacity speed deadline
              fuel_price overrides ext s Ho Hd Hs Hw Hlast Hnd Hlen Hscore Hle)
    as (b & all & Hapi & _ & Hcost & Htime).
  by exists b, all.
Qed.

(** The route through Panama City takes at most 2 * 6371 * 4 / 20 hours,
    and a little for the rounding. *)
Lemma singapore_score_bound :
  exists s,
    path_cost_and_time ["SIN"; "PTY"; "LAX"] 1000 ∅ 20 0.12 = Some s
    /\ score_time_h s <= 3000.
Proof.
  eexists. split; [apply singapore_panama_los_angeles|]. simpl.
  etrans; [apply round2_upper|].
  pose proof (haversine_km_le 1.3521 103.8198 8.9833 (-79.5167)).
  pose proof (haversine_km_le 8.9833 (-79.5167) 33.7405 (-118.2775)).
  lra.
Qed.

Lemma singapore_score :
  exists s,
    path_cost_and_time ["SIN"; "PTY"; "LAX"] 1000 ∅ 20 0.12 = Some s
    /\ score_time_h s <= 1000000000.
Proof.
  destruct singapore_score_bound as (s & Hs & Ht). exists s. split; [done|]. lra.
Qed.

(** From Singapore to Los Angeles at 1000 tons, 20 km/h and fuel price
    0.12, a deadline of 3000 hours or more leaves a best candidate. *)
Lemma singapore_best deadline :
  3000 <= deadline ->
  exists b all,
    api_optimize "SIN" "LAX" 1000 20 deadline 0.12 ∅
    = Some (Routes (Some b) all)
    /\ b ∈ all.
Proof.
  intros Hd. destruct singapore_score_bound as (s & Hs & Ht).
  destruct (api_best_exists "SIN" "LAX" 1000 20 deadline 0.12 ∅
              ["PTY"; "LAX"] s) as (b & all & Hapi & Hin & _);
    [eapply known_port_intro; reflexivity
    |eapply known_port_intro; reflexivity
    |lra
    |simpl; split; [|split; [|done]]; compute_done
    |reflexivity
    |compute_done
    |simpl; lia
    |exact Hs
    |lra
    |].
  by exists b, all.
Qed.

(** The instance: Singapore to Los Angeles with the default deadline of
    [1e9] hours; the route through Panama City bounds the cost of the best
    candidate. *)
Lemma api_best_is_optimal_witness :
  exists s b all,
    path_cost_and_time ["SIN"; "PTY"; "LAX"] 1000 ∅ 20 0.12 = Some s
    /\ api_optimize "SIN" "LAX" 1000 20 1000000000 0.12 ∅
       = Some (Routes (Some b) all)
    /\ cost b <= score_cost s
    /\ time_h b <= 1000000000.
Proof.
  destruct singapore_score as (s & Hs & Ht).
  exists s.
  destruct (api_best_is_optimal "SIN" "LAX" 1000 20 1000000000 0.12 ∅
              ["PTY"; "LAX"] s) as (b & all & H);
    [eapply known_port_intro; reflexivity
    |eapply known_port_intro; reflexivity
    |lra
    |simpl; split; [|split; [|done]]; compute_done
    |reflexivity
    |compute_done
    |simpl; lia
    |exact Hs
    |exact Ht
    |].
  by exists b, all.
Defined.

Lemma ADJ_key_known origin nbrs : ADJ !! origin = Some nbrs -> known_port origin.
Proof.
  intros Hl%elem_of_list_to_map_2.
  pose proof ADJ_items_known as Hall. rewrite Forall_forall in Hall.
  by destruct (Hall _ Hl) as [? _].
Qed.

Lemma ADJ_listed_known node nbrs nbr :
  ADJ !! node = Some nbrs -> nbr ∈ nbrs -> known_port nbr.
Proof.
  intros Hl%elem_of_list_to_map_2 Hin.
  pose proof ADJ_items_known as Hall. rewrite Forall_forall in Hall.
  destruct (Hall _ Hl) as [_ Hn]. rewrite Forall_forall in Hn. by apply Hn.
Qed.

Lemma ADJ_no_route origin destination :
  ~ known_port origin \/ ~ known_port destination \/ origin = destination ->
  enumerate_simple_paths ADJ origin destination MAX_HOPS = Some [].
Proof.
  intros [Ho|[Hd| <-]].
  - apply (enumerate_nothing ADJ origin destination MAX_HOPS
             (fun f => ADJ !! f.1 = None)).
    + intros node path nbr Hnone Hin _. simpl in *.
      unfold graph_get in Hin. rewrite Hnone in Hin. by apply elem_of_nil in Hin.
    + simpl. destruct (ADJ !! origin) as [nbrs|] eqn:E; [|done].
      destruct Ho. by eapply ADJ_key_known.
  - apply (enumerate_nothing ADJ origin destination MAX_HOPS (fun _ => True));
      [|done].
    intros node path nbr _ Hin _. split; [|done]. intros ->.
    destruct (graph_get_listed _ _ _ Hin) as (nbrs & Hl & Hn).
    apply Hd. by eapply ADJ_listed_known.
  - apply (enumerate_nothing ADJ origin origin MAX_HOPS (fun f => origin ∈ f.2)).
    + intros node path nbr Hin _ Hnew. simpl in *. split.
      * by intros ->.
      * apply elem_of_app. by left.
    + simpl. by left.
Qed.

(** Without a route to enumerate, the form route answers with no best
    route and no candidate, whatever the parsed numbers and the overrides
    field. *)
Lemma optimize_no_route (py_float : string -> option R)
    (origin destination : string) (capacity speed deadline fuel_price : R)
    (overrides_field : string) :
  ~ known_port origin \/ ~ known_port destination \/ origin = destination ->
  optimize py_float origin destination capacity speed deadline fuel_price
           overrides_field
  = Some (None, []).
Proof.
  intros H. unfold optimize, select. by rewrite (ADJ_no_route _ _ H).
Qed.

(** The form route does not validate the ports.  For a form that holds an
    origin and a destination of which one is no port, or which are equal, the
    route answers with no best route and no candidate whenever [float]
    accepts the numeric fields that are present (a zero speed and any
    overrides field included), and raises exactly when [float] rejects one of
    them. *)
Theorem optimize_request_no_route (py_float : string -> option R)
    (form : gmap string string) (origin destination : string) :
  form !! "origin" = Some origin ->
  form !! "destination" = Some destination ->
  ~ known_port origin \/ ~ known_port destination \/ origin = destination ->
  optimize_request py_float form
  = (_ ← form_float py_float form "capacity" 1000;
     _ ← form_float py_float form "speed" DEFAULT_VESSEL_SPEED_KMH;
     _ ← form_float py_float form "deadline" 1000000000;
     _ ← form_float py_float form "fuel_price" FUEL_PRICE_PER_KM;
     Some (None, [])).
Proof.
  intros Ho Hd H. unfold optimize_request. rewrite Ho, Hd. simpl.
  destruct (form_float py_float form "capacity" 1000); simpl; [|done].
  destruct (form_float py_float form "speed" DEFAULT_VESSEL_SPEED_KMH);
    simpl; [|done].
  destruct (form_float py_float form "deadline" 1000000000); simpl; [|done].
  destruct (form_float py_float form "fuel_price" FUEL_PRICE_PER_KM);
    simpl; [|done].
  by apply optimize_no_route.
Qed.

(** The instances: an origin that is no port, with a speed of zero, is
    answered with no route; the same form with a speed that is no number
    raises. *)
Lemma optimize_request_no_route_witness :
  optimize_request float_of_digits
    (<["origin" := "XXX"]> (<["destination" := "LAX"]> (<["speed" := "0"]> ∅)))
  = Some (None, [])
  /\ optimize_request float_of_digits
       (<["origin" := "XXX"]>
          (<["destination" := "LAX"]> (<["speed" := "fast"]> ∅)))
     = None.
Proof.
  assert (Hx : ~ known_port "XXX") by (intros [p Hp]; discriminate Hp).
  split.
  - rewrite (optimize_request_no_route float_of_digits _ "XXX" "LAX");
      [reflexivity|reflexivity|reflexivity|by left].
  - rewrite (optimize_request_no_route float_of_digits _ "XXX" "LAX");
      [reflexivity|reflexivity|reflexivity|by left].
Defined.

Lemma scores_unique paths scores scores' capacity overrides speed fuel_price :
  Forall2 (fun p s => path_cost_and_time p capacity overrides speed
                                         fuel_price = Some s)
          paths scores ->
  Forall2 (fun p s => path_cost_and_time p capacity overrides speed
                                         fuel_price = Some s)
          paths scores' ->
  scores = scores'.
Proof.
  intros H. revert scores'.
  induction H as [|p s paths scores Hs _ IH]; intros scores' H';
    inversion H' as [|? s' ? scores'' Hs' Hrest]; subst; [done|].
  rewrite Hs in Hs'. injection Hs' as <-. f_equal. by apply IH.
Qed.

(** A looser deadline never loses a candidate and never makes the best
    route costlier: for two known ports, a non-zero speed and two deadlines
    [d1 <= d2], every candidate returned under [d1] is returned under [d2],
    and a best candidate under [d1] comes with a best candidate under [d2]
    that costs no more. *)
Theorem deadline_monotone (origin destination : string)
    (capacity speed d1 d2 fuel_price : R) (overrides : gmap string R) :
  known_port origin -> known_port destination -> speed <> 0 -> d1 <= d2 ->
  exists best1 all1 best2 all2,
    api_optimize origin destination capacity speed d1 fuel_price overrides
    = Some (Routes best1 all1)
    /\ api_optimize origin destination capacity speed d2 fuel_price overrides
       = Some (Routes best2 all2)
    /\ (forall c, c ∈ all1 -> c ∈ all2)
    /\ (forall b1, best1 = Some b1 ->
          exists b2, best2 = Some b2 /\ cost b2 <= cost b1).
Proof.
  intros Ho Hd Hs Hle.
  destruct (api_optimize_routes origin destination capacity speed d1
              fuel_price overrides Ho Hd Hs)
    as (paths & scores & Hrun & Hsc & Hapi1).
  destruct (api_optimize_routes origin destination capacity speed d2
              fuel_price overrides Ho Hd Hs)
    as (paths' & scores' & Hrun' & Hsc' & Hapi2).
  rewrite Hrun in Hrun'. injection Hrun' as <-.
  rewrite <- (scores_unique _ _ _ _ _ _ _ Hsc Hsc') in Hapi2.
  assert (Hsub : forall c,
             c ∈ sorted_by_cost (feasible d1 (zip paths scores)) ->
             c ∈ sorted_by_cost (feasible d2 (zip paths scores))).
  { intros c (p & s & Hin & Ht & ->)%elem_of_sorted_by_cost%elem_of_feasible.
    apply elem_of_sorted_by_cost, elem_of_feasible.
    exists p, s. split; [done|]. split; [lra|done]. }
  do 4 eexists. split; [exact Hapi1|]. split; [exact Hapi2|].
  split; [exact Hsub|].
  intros b1 Hb1.
  assert (Hin1 : b1 ∈ sorted_by_cost (feasible d1 (zip paths scores))).
  { destruct (sorted_by_cost (feasible d1 (zip paths scores))); [done|].
    injection Hb1 as ->. by left. }
  apply Hsub in Hin1.
  pose proof (sorted_by_cost_sorted (feasible d2 (zip paths scores))) as Hss.
  destruct (sorted_by_cost (feasible d2 (zip paths scores))) as [|b2 rest];
    [by apply elem_of_nil in Hin1|].
  exists b2. split; [done|].
  apply StronglySorted_inv in Hss as [_ Hall].
  apply elem_of_cons in Hin1 as [->|Hin1]; [lra|].
  rewrite Forall_forall in Hall. apply (Hall _ Hin1).
Qed.

(** *** Instances on a request that has feasible routes

    From Singapore to Los Angeles at 1000 tons, 20 km/h and fuel price 0.12,
    with the default deadline of [1e9] hours: the enumeration yields seven
    routes and all of them are feasible. *)

(** The instance of C5: the list returned is sorted and not empty, and the
    best candidate is present. *)
Lemma cheapest_first_witness :
  exists paths scores best all,
    (enumerate_simple_paths ADJ "SIN" "LAX" MAX_HOPS = Some paths
     /\ Forall2 (fun p s => path_cost_and_time p 1000 ∅ 20 0.12 = Some s)
                paths scores
     /\ api_optimize "SIN" "LAX" 1000 20 1000000000 0.12 ∅
        = Some (Routes best all)
     /\ all ≡ₚ feasible 1000000000 (zip paths scores)
     /\ Sorted cost_le all
     /\ best = head all
     /\ (forall b c, best = Some b -> c ∈ all -> cost b <= cost c)
     /\ (feasible 1000000000 (zip paths scores) = []
         -> best = None /\ all = []))
    /\ best <> None /\ all <> [].
Proof.
  destruct (cheapest_first "SIN" "LAX" 1000 20 1000000000 0.12 ∅)
    as (paths & scores & best & all & H);
    [eapply known_port_intro; reflexivity
    |eapply known_port_intro; reflexivity
    |lra
    |].
  exists paths, scores, best, all. split; [exact H|].
  destruct H as (_ & _ & Hapi & _).
  destruct (singapore_best 1000000000) as (b & all' & Hb & Hin); [lra|].
  rewrite Hapi in Hb. injection Hb as -> ->.
  split; [done|]. intros ->. by apply elem_of_nil in Hin.
Defined.

(** The instance of the route property of the candidates: the list is not
    empty. *)
Lemma api_candidates_are_routes_witness :
  exists best all,
    (api_optimize "SIN" "LAX" 1000 20 1000000000 0.12 ∅
     = Some (Routes best all)
     /\ Forall (fun c =>
                  (exists ext,
                      path c = "SIN" :: ext
                      /\ walk ADJ "SIN" ext
                      /\ last ext = Some "LAX"
                      /\ (1 <= Z.of_nat (length ext) <= 7)%Z)
                  /\ NoDup (path c)
                  /\ path_cost_and_time (path c) 1000 ∅ 20 0.12
                     = Some {| score_cost := cost c;
                               score_time_h := time_h c |}
                  /\ time_h c <= 1000000000)
               all)
    /\ all <> [].
Proof.
  destruct (api_candidates_are_routes "SIN" "LAX" 1000 20 1000000000 0.12 ∅)
    as (best & all & H);
    [eapply known_port_intro; reflexivity
    |eapply known_port_intro; reflexivity
    |lra
    |].
  exists best, all. split; [exact H|].
  destruct H as [Hapi _].
  destruct (singapore_best 1000000000) as (b & all' & Hb & Hin); [lra|].
  rewrite Hapi in Hb. injection Hb as -> ->.
  intros ->. by apply elem_of_nil in Hin.
Defined.

(** The instance of the monotonicity in the deadline: 3000 hours against
    the default [1e9]; under both there is a best candidate. *)
Lemma deadline_monotone_witness :
  exists best1 all1 best2 all2,
    (api_optimize "SIN" "LAX" 1000 20 3000 0.12 ∅ = Some (Routes best1 all1)
     /\ api_optimize "SIN" "LAX" 1000 20 1000000000 0.12 ∅
        = Some (Routes best2 all2)
     /\ (forall c, c ∈ all1 -> c ∈ all2)
     /\ (forall b1, best1 = Some b1 ->
           exists b2, best2 = Some b2 /\ cost b2 <= cost b1))
    /\ best1 <> None /\ all1 <> [].
Proof.
  destruct (deadline_monotone "SIN" "LAX" 1000 20 3000 1000000000 0.12 ∅)
    as (best1 & all1 & best2 & all2 & H);
    [eapply known_port_intro; reflexivity
    |eapply known_port_intro; reflexivity
    |lra
    |lra
    |].
  exists best1, all1, best2, all2. split; [exact H|].
  destruct H as (Hapi & _).
  destruct (singapore_best 3000) as (b & all' & Hb & Hin); [lra|].
  rewrite Hapi in Hb. injection Hb as -> ->.
  split; [done|]. intros ->. by apply elem_of_nil in Hin.
Defined.

End SelectionCoverage.

(** ** The keys of the parsed overrides *)

Module OverridesCoverage.

Import Overrides OverridesFacts.

Lemma upper_char_idem c : upper_char (upper_char c) = upper_char c.
Proof. by destruct c as [[] [] [] [] [] [] [] []]. Qed.

Lemma upper_idem s : upper (upper s) = upper s.
Proof.
  induction s as [|c s IH]; simpl; [done|]. by rewrite upper_char_idem, IH.
Qed.

Section Keys.

Variable py_float : string -> option R.

Lemma parse_entry_keys part (overrides overrides' : gmap string R) :
  map_Forall (fun k _ => upper k = k) overrides ->
  parse_entry py_float part overrides = Some overrides' ->
  map_Forall (fun k _ => upper k = k) overrides'.
Proof.
  intros Hall. unfold parse_entry.
  destruct (split ":" part) as [|k [|v [|? ?]]]; try done.
  destruct (py_float v) as [x|]; simpl; [|done].
  intros [= <-]. apply map_Forall_insert_2; [apply upper_idem|done].
Qed.

Lemma parse_loop_keys parts :
  forall overrides : gmap string R,
    map_Forall (fun k _ => upper k = k) overrides ->
    map_Forall (fun k _ => upper k = k) (parse_loop py_float parts overrides).
Proof.
  induction parts as [|part parts IH]; intros overrides Hall; simpl; [done|].
  destruct (parse_entry py_float part overrides) as [overrides'|] eqn:E;
    [|done].
  apply IH. by eapply parse_entry_keys.
Qed.

(** Whatever the form field holds, every key of the parsed overrides is in
    upper case: the codes are normalised before they are stored, so an
    override typed in lower case applies to the port. *)
Theorem parsed_keys_upper (overrides_field : string) :
  map_Forall (fun k _ => upper k = k) (parse_overrides py_float overrides_field).
Proof.
  unfold parse_overrides. case_bool_decide.
  - apply map_Forall_empty.
  - apply parse_loop_keys, map_Forall_empty.
Qed.

End Keys.

End OverridesCoverage.
